(** * Scatter/gather segment iteration ([core.c]) and the buffer / time
      helpers ([sample.c]): a shallow embedding and its properties.

    The C sources are modelled for an LP64 target: [size_t], [uint64_t] and
    [unsigned long] are 64 bits wide, [int] and [uint32_t] are 32 bits wide.
    Unsigned arithmetic wraps; a conversion to a signed type keeps the low
    bits and reinterprets them in two's complement. *)

From Stdlib Require Import ZArith List Bool Lia.
From stdpp Require Import base option list gmap.

Local Open Scope Z_scope.

(** ** Machine integers *)

Definition SIZE_MAX : Z := 2 ^ 64 - 1.
Definition INT_MAX : Z := 2 ^ 31 - 1.

(** Result of an unsigned 64-bit operation ([size_t], [uint64_t]). *)
Definition size_wrap (z : Z) : Z := z mod 2 ^ 64.

(** Conversion of an integer value to [int]. *)
Definition int_of_size (z : Z) : Z :=
  let r := z mod 2 ^ 32 in
  if r <? 2 ^ 31 then r else r - 2 ^ 32.

(** Conversion to [uint32_t] and to [int64_t]. *)
Definition to_uint32 (z : Z) : Z := z mod 2 ^ 32.

Definition to_int64 (z : Z) : Z :=
  let r := z mod 2 ^ 64 in
  if r <? 2 ^ 63 then r else r - 2 ^ 64.

(** ** Outcomes of a run

    [OutOfBounds] is a read past the end of the [struct iovec] array the
    pointer was derived from (undefined behaviour in C).  [OutOfFuel] is the
    [while] loop of the iterator still running after [fuel] iterations. *)

Inductive outcome (A : Type) : Type :=
| Ret (a : A)
| OutOfBounds
| OutOfFuel.

Arguments Ret {A} a.
Arguments OutOfBounds {A}.
Arguments OutOfFuel {A}.

Definition returns {A : Type} (o : outcome A) : bool :=
  match o with Ret _ => true | _ => false end.

Module Core.

(** ** Data model of [core.c] *)

(** [struct iovec].  [iov_base] is an address, [0] standing for [NULL]. *)
Record iovec : Type := { iov_base : Z; iov_len : Z }.

(** A [struct iovec *]: the array object it points into, and the index of
    the element it points at.  [idx] may run past the end of the array; the
    fault is raised when such a pointer is dereferenced. *)
Record iovec_ptr : Type := { arr : list iovec; idx : nat }.

Definition array_ptr (l : list iovec) : iovec_ptr := {| arr := l; idx := 0 |}.

(** [*p], [p[i]] and [p++]. *)
Definition deref (p : iovec_ptr) : option iovec := arr p !! idx p.

Definition index (p : iovec_ptr) (i : nat) : option iovec :=
  arr p !! (idx p + i)%nat.

Definition ptr_incr (p : iovec_ptr) : iovec_ptr :=
  {| arr := arr p; idx := S (idx p) |}.

(** [struct iov_iter]. *)
Record iov_iter : Type :=
  { iov : iovec_ptr; nr_segs : Z; iov_offset : Z }.

(** Byte-addressed memory reached through [iov_base]: the byte stored at
    each address that has been written, if any.  Every address can be
    stored to; that the regions named by a segment list are valid is the
    caller's obligation. *)
Abbreviation heap := (gmap Z Z).

(** ** A state and error monad for the functions that may touch memory *)

Definition M (A : Type) : Type := heap -> outcome (A * heap).

Definition ret {A : Type} (a : A) : M A := fun h => Ret (a, h).

Definition bind {A B : Type} (m : M A) (k : A -> M B) : M B :=
  fun h =>
    match m h with
    | Ret (a, h') => k a h'
    | OutOfBounds => OutOfBounds
    | OutOfFuel => OutOfFuel
    end.

Definition lift {A : Type} (o : outcome A) : M A :=
  fun h =>
    match o with
    | Ret a => Ret (a, h)
    | OutOfBounds => OutOfBounds
    | OutOfFuel => OutOfFuel
    end.

(** Reading [p[i]]: a fault outside the array. *)
Definition load_iovec (p : iovec_ptr) (i : nat) : M iovec :=
  fun h =>
    match index p i with
    | Some seg => Ret (seg, h)
    | None => OutOfBounds
    end.

(** [*(char * )a = v]. *)
Definition store (a v : Z) : M unit := fun h => Ret (tt, <[a := v]> h).

Notation "'do' x <- m ;; k" := (bind m (fun x => k))
  (at level 10, x name, m at level 99, k at level 200, only parsing).

(** ** [__iov_iter_advance_iov] *)

(** The [while (bytes || !iov->iov_len)] loop.  Both the loop condition
    (when [bytes] is zero) and the first statement of the body read
    [iov->iov_len], so every iteration starts by dereferencing [iov]. *)
Fixpoint advance_loop (fuel : nat) (iov : iovec_ptr) (base bytes : Z)
  : outcome (iovec_ptr * Z) :=
  match fuel with
  | O => OutOfFuel
  | S fuel' =>
      match deref iov with
      | None => OutOfBounds
      | Some seg =>
          if negb (bytes =? 0) || (iov_len seg =? 0) then
            let avail := size_wrap (iov_len seg - base) in
            let copy := int_of_size (if bytes <? avail then bytes else avail) in
            let bytes := size_wrap (bytes - copy) in
            let base := size_wrap (base + copy) in
            if iov_len seg =? base
            then advance_loop fuel' (ptr_incr iov) 0 bytes
            else advance_loop fuel' iov base bytes
          else Ret (iov, base)
      end
  end.

Definition __iov_iter_advance_iov (fuel : nat) (i : iov_iter) (bytes : Z)
  : outcome iov_iter :=
  if nr_segs i =? 1 then
    Ret {| iov := iov i; nr_segs := nr_segs i;
           iov_offset := size_wrap (iov_offset i + bytes) |}
  else
    match advance_loop fuel (iov i) (iov_offset i) bytes with
    | Ret (p, base) =>
        Ret {| iov := p; nr_segs := nr_segs i; iov_offset := base |}
    | OutOfBounds => OutOfBounds
    | OutOfFuel => OutOfFuel
    end.

Definition initialize_iov_iter (iov : iovec_ptr) (nr_segs : Z) : iov_iter :=
  {| iov := iov; nr_segs := nr_segs; iov_offset := 0 |}.

(** ** [safe_copy_data] *)

(** [for (i = 0; i < count; i++) total += iov[i].iov_len;], entered with
    the loop counter at [i] and [n] iterations to go. *)
Fixpoint sum_iov_len (p : iovec_ptr) (i n : nat) (total : Z) : outcome Z :=
  match n with
  | O => Ret total
  | S n' =>
      match index p i with
      | None => OutOfBounds
      | Some seg => sum_iov_len p (S i) n' (size_wrap (total + iov_len seg))
      end
  end.

(** The sum of the first [count] segment lengths as the copy engine
    computes it (lines 51-54 and 56-59). *)
Definition total_length (p : iovec_ptr) (count : Z) : outcome Z :=
  sum_iov_len p 0 (Z.to_nat count) 0.

(** [for (i = 0; i < src_count; i++)
       __iov_iter_advance_iov(&iter, src_iov[i].iov_len);] *)
Fixpoint advance_each (fuel : nat) (src_iov : iovec_ptr) (i n : nat)
    (iter : iov_iter) : outcome iov_iter :=
  match n with
  | O => Ret iter
  | S n' =>
      match index src_iov i with
      | None => OutOfBounds
      | Some seg =>
          match __iov_iter_advance_iov fuel iter (iov_len seg) with
          | Ret iter' => advance_each fuel src_iov (S i) n' iter'
          | OutOfBounds => OutOfBounds
          | OutOfFuel => OutOfFuel
          end
      end
  end.

Definition safe_copy_data (fuel : nat) (src_iov : iovec_ptr) (src_count : Z)
    (dst_iov : iovec_ptr) (dst_count : Z) : M Z :=
  do total_src <- lift (total_length src_iov src_count) ;;
  do total_dst <- lift (total_length dst_iov dst_count) ;;
  if total_dst <? total_src then ret (-1)
  else
    do _ <- lift (advance_each fuel src_iov 0 (Z.to_nat src_count)
                 (initialize_iov_iter src_iov src_count)) ;;
    ret 0.

(** ** [process_iovec_segments] *)

(** [for (j = 0; j < len; j++) data[j] = 'A' + (j % 26);] entered at [j]
    with [n] iterations to go. *)
Fixpoint fill_pattern (data : Z) (j n : nat) : M unit :=
  match n with
  | O => ret tt
  | S n' =>
      do _ <- store (data + Z.of_nat j) (65 + Z.of_nat j mod 26) ;;
      fill_pattern data (S j) n'
  end.

Fixpoint process_from (iov : iovec_ptr) (i n : nat) : M unit :=
  match n with
  | O => ret tt
  | S n' =>
      do seg <- load_iovec iov i ;;
      do _ <- (if (0 <? iov_len seg) && negb (iov_base seg =? 0)
            then fill_pattern (iov_base seg) 0 (Z.to_nat (iov_len seg))
            else ret tt) ;;
      process_from iov (S i) n'
  end.

Definition process_iovec_segments (iov : iovec_ptr) (count : Z) : M unit :=
  process_from iov 0 (Z.to_nat count).

(** ** [validate_iovec_lengths] *)

Fixpoint validate_from (iov : iovec_ptr) (i n : nat) : outcome Z :=
  match n with
  | O => Ret 0
  | S n' =>
      match index iov i with
      | None => OutOfBounds
      | Some seg =>
          if 1000000 <? iov_len seg then Ret (-1)
          else validate_from iov (S i) n'
      end
  end.

Definition validate_iovec_lengths (iov : iovec_ptr) (count : Z) : outcome Z :=
  validate_from iov 0 (Z.to_nat count).

(** ** [perform_io_operation] *)

Definition perform_io_operation (fuel : nat) (src_iov : iovec_ptr)
    (src_count : Z) (dst_iov : iovec_ptr) (dst_count : Z) : M Z :=
  do r1 <- lift (validate_iovec_lengths src_iov src_count) ;;
  if negb (r1 =? 0) then ret (-1)
  else
    do r2 <- lift (validate_iovec_lengths dst_iov dst_count) ;;
    if negb (r2 =? 0) then ret (-1)
    else
      do _ <- process_iovec_segments src_iov src_count ;;
      safe_copy_data fuel src_iov src_count dst_iov dst_count.

(** ** [process_buffer_with_check] and [process_buffer_no_check]

    [buffer] is the address of the first byte, [index] a value of type
    [int]; ['X'] is 88 and ['Y'] is 89.  In [index >= len] the [int] is
    converted to [size_t] before the comparison. *)

Definition MAX_BUFFER_SIZE : Z := 1024.

Definition process_buffer_with_check (buffer len index : Z) : M Z :=
  if MAX_BUFFER_SIZE <=? index then ret (-1)
  else
    do _ <- store (buffer + index) 88 ;;
    ret 0.

Definition process_buffer_no_check (buffer len index : Z) : M Z :=
  do _ <- store (buffer + index) 89 ;;
  if len <=? size_wrap index then ret (-1)
  else ret 0.

(** ** Vocabulary of the statements *)

(** The segment list designated by a pointer and a count. *)
Definition segments (p : iovec_ptr) (count : Z) : list iovec :=
  take (Z.to_nat count) (drop (idx p) (arr p)).

(** The mathematical (unbounded) sum of the segment lengths. *)
Definition sum_len (l : list iovec) : Z :=
  foldr (fun seg acc => iov_len seg + acc) 0 l.

(** Every length is a value of type [size_t]. *)
Definition lengths_in_range (l : list iovec) : Prop :=
  Forall (fun seg => 0 <= iov_len seg <= SIZE_MAX) l.

(** Address [a] lies inside the region described by [seg]. *)
Definition in_segment (a : Z) (seg : iovec) : Prop :=
  iov_base seg <= a < iov_base seg + iov_len seg.

Definition in_segments (a : Z) (l : list iovec) : Prop :=
  Exists (in_segment a) l.

(** Address [a] lies inside [seg] and [seg] is one of the segments that
    [process_iovec_segments] fills (its base is not [NULL]). *)
Definition filled (a : Z) (seg : iovec) : Prop :=
  in_segment a seg /\ iov_base seg <> 0.

(** The bytes of one segment, and the logical byte stream of a list. *)
Definition segment_bytes (h : heap) (seg : iovec) : list (option Z) :=
  map (fun j => h !! (iov_base seg + Z.of_nat j))
      (seq 0 (Z.to_nat (iov_len seg))).

Definition contents (h : heap) (l : list iovec) : list (option Z) :=
  flat_map (segment_bytes h) l.

(** No address belongs to a segment of both lists. *)
Definition non_overlapping (l1 l2 : list iovec) : Prop :=
  forall a, in_segments a l1 -> in_segments a l2 -> False.

(** Every length is small enough for the [int] local [copy] of the
    iterator's loop. *)
Definition lengths_fit_int (l : list iovec) : Prop :=
  Forall (fun seg => 0 <= iov_len seg <= INT_MAX) l.

(** The iterator cursor as the specification names it.  The segment list of
    an iterator is the array its pointer was taken from. *)
Definition segment_index (i : iov_iter) : nat := idx (iov i).

Definition offset_in_segment (i : iov_iter) : Z := iov_offset i.

(** Unconsumed length from the cursor to the end of the list, as an
    unbounded integer: negative once the cursor has overrun the list. *)
Definition remaining_bytes (i : iov_iter) : Z :=
  sum_len (drop (segment_index i) (arr (iov i))) - offset_in_segment i.

(** The cursor has reached the end of the list exactly. *)
Definition exhausted (i : iov_iter) : Prop := remaining_bytes i = 0.

(** The iterator invariant of the data model: the cursor is inside the list
    or just past it; (a) while not exhausted it designates a segment and the
    offset does not exceed that segment's length; (b) the index equals the
    number of segments only when exhausted. *)
Definition iter_invariant (i : iov_iter) : Prop :=
  (segment_index i <= length (arr (iov i)))%nat /\
  (~ exhausted i ->
   exists seg, deref (iov i) = Some seg /\
               0 <= offset_in_segment i <= iov_len seg) /\
  (segment_index i = length (arr (iov i)) -> exhausted i).

(** The iterator ranges over the whole of its array, as after
    [initialize_iov_iter] on a list and its number of segments. *)
Definition over_whole_array (i : iov_iter) : Prop :=
  nr_segs i = Z.of_nat (length (arr (iov i))).

(** A segment exceeds the bound of [validate_iovec_lengths]. *)
Definition too_large (seg : iovec) : Prop := 1000000 < iov_len seg.

(** Sample segments for the concrete scenarios. *)
Definition seg_of_len (n : Z) : iovec := {| iov_base := 4096; iov_len := n |}.

End Core.

Module Sample.

(** ** Data model of [sample.c] *)

Definition TICK_NSEC : Z := 1000000.
Definition NSEC_PER_SEC : Z := 1000000000.

(** [struct buffer]; [data] is an address, [0] standing for [NULL]. *)
Record buffer : Type := { data : Z; size : Z; capacity : Z }.

(** The allocator as [cleanup_buffer] sees it: the blocks that are live, and
    the arguments of the calls to [free] made so far, latest first. *)
Record allocator : Type := { live : gset Z; freed : list Z }.

Definition free (p : Z) (m : allocator) : allocator :=
  {| live := live m ∖ {[p]}; freed := p :: freed m |}.

(** [struct timespec]. *)
Record timespec : Type := { tv_sec : Z; tv_nsec : Z }.

(** ** [cleanup_buffer] *)

Definition cleanup_buffer (buf : buffer) (m : allocator) : buffer * allocator :=
  let '(d, m') :=
    if negb (data buf =? 0) then (0, free (data buf) m) else (data buf, m) in
  ({| data := d; size := 0; capacity := 0 |}, m').

(** ** [safe_div_u64_rem]

    Returns the status code and the content of [*remainder] after the call;
    [remainder] is its content before. *)
Definition safe_div_u64_rem (dividend divisor remainder : Z) : Z * Z :=
  if divisor =? 0 then (-1, remainder)
  else (0, to_uint32 (dividend mod divisor)).

(** ** [jiffies_to_timespec]

    [rem] is the indeterminate initial content of the local of that name. *)
Definition jiffies_to_timespec (jiffies rem : Z) : timespec :=
  let result := size_wrap (size_wrap jiffies * TICK_NSEC) in
  let '(status, rem') := safe_div_u64_rem result NSEC_PER_SEC rem in
  if negb (status =? 0) then {| tv_sec := 0; tv_nsec := 0 |}
  else {| tv_sec := to_int64 (result / NSEC_PER_SEC);
          tv_nsec := to_int64 rem' |}.

(** ** The C library, as far as the buffer functions use it

    A block is the sequence of its bytes, [None] for a byte that has never
    been written (its value is indeterminate).  [mem_blocks] holds the live
    blocks by address; the allocator state goes along with it.  The
    allocating functions take the pointer the library hands back as an
    argument, [0] when it reports failure; a proper library returns a
    pointer that is not live.  [OutOfBounds] stands here for an access
    outside a live block, which C leaves undefined. *)

Record memory : Type :=
  { mem_alloc : allocator; mem_blocks : gmap Z (list (option Z)) }.

(** [malloc(n)] returning [p]. *)
Definition malloc (p n : Z) (m : memory) : memory :=
  if p =? 0 then m
  else
    {| mem_alloc := {| live := {[p]} ∪ live (mem_alloc m);
                       freed := freed (mem_alloc m) |};
       mem_blocks := <[p := replicate (Z.to_nat n) None]> (mem_blocks m) |}.

(** [free(p)]. *)
Definition mfree (p : Z) (m : memory) : memory :=
  {| mem_alloc := free p (mem_alloc m);
     mem_blocks := base.delete p (mem_blocks m) |}.

(** [realloc(old, n)] returning [q]: on failure the old block stays as it
    is; on success the new block starts with the old bytes, as many as fit,
    and the old block is gone unless the new one is at the same address.
    [realloc(NULL, n)] allocates. *)
Definition realloc (q old n : Z) (m : memory) : outcome memory :=
  if q =? 0 then Ret m
  else
    match (if old =? 0 then Some [] else mem_blocks m !! old) with
    | None => OutOfBounds
    | Some bytes =>
        Ret {| mem_alloc :=
                 {| live := {[q]} ∪ (live (mem_alloc m) ∖ {[old]});
                    freed := freed (mem_alloc m) |};
               mem_blocks :=
                 <[q := take (Z.to_nat n) bytes
                        ++ replicate (Z.to_nat n - length bytes) None]>
                   (base.delete old (mem_blocks m)) |}
    end.

(** [memcpy(p + off, src, len)] where [p] is the address of a block and
    [src] the bytes readable from the source pointer. *)
Definition memcpy (p off : Z) (src : list (option Z)) (len : Z) (m : memory)
  : outcome memory :=
  match mem_blocks m !! p with
  | None => OutOfBounds
  | Some bytes =>
      if (0 <=? off) && (0 <=? len)
         && (off + len <=? Z.of_nat (length bytes))
         && (len <=? Z.of_nat (length src))
      then
        Ret {| mem_alloc := mem_alloc m;
               mem_blocks :=
                 <[p := take (Z.to_nat off) bytes
                        ++ take (Z.to_nat len) src
                        ++ drop (Z.to_nat (off + len)) bytes]>
                   (mem_blocks m) |}
      else OutOfBounds
  end.

(** [p[off] = c]. *)
Definition store_byte (p off c : Z) (m : memory) : outcome memory :=
  match mem_blocks m !! p with
  | None => OutOfBounds
  | Some bytes =>
      if (0 <=? off) && (off <? Z.of_nat (length bytes))
      then Ret {| mem_alloc := mem_alloc m;
                  mem_blocks :=
                    <[p := <[Z.to_nat off := Some c]> bytes]> (mem_blocks m) |}
      else OutOfBounds
  end.

(** ** [initialize_buffer]

    [buf] is the structure as it is before the call, [p] what [malloc]
    returns. *)
Definition initialize_buffer (buf : buffer) (initial_capacity p : Z)
    (m : memory) : Z * buffer * memory :=
  let m' := malloc p initial_capacity m in
  if p =? 0 then
    (-1, {| data := p; size := size buf; capacity := capacity buf |}, m')
  else
    (0, {| data := p; size := 0; capacity := initial_capacity |}, m').

(** ** [resize_buffer]

    [q] is what [realloc] returns. *)
Definition resize_buffer (buf : buffer) (new_capacity q : Z) (m : memory)
  : outcome (Z * buffer * memory) :=
  match realloc q (data buf) new_capacity m with
  | Ret m' =>
      if q =? 0 then Ret (-1, buf, m')
      else Ret (0, {| data := q; size := size buf;
                      capacity := new_capacity |}, m')
  | OutOfBounds => OutOfBounds
  | OutOfFuel => OutOfFuel
  end.

(** ** [append_to_buffer] *)

(** [while (new_capacity < buf->size + len) new_capacity *= 2;] with [need]
    the value of [buf->size + len]. *)
Fixpoint grow_capacity (fuel : nat) (new_capacity need : Z) : outcome Z :=
  match fuel with
  | O => OutOfFuel
  | S fuel' =>
      if new_capacity <? need
      then grow_capacity fuel' (size_wrap (new_capacity * 2)) need
      else Ret new_capacity
  end.

(** [bytes] are the bytes readable from the source pointer, [q] is what
    [realloc] returns if it is called. *)
Definition append_to_buffer (fuel : nat) (buf : buffer) (bytes : list Z)
    (len q : Z) (m : memory) : outcome (Z * buffer * memory) :=
  let need := size_wrap (size buf + len) in
  let copy (buf : buffer) (m : memory) :=
    match memcpy (data buf) (size buf) (Some <$> bytes) len m with
    | Ret m' =>
        Ret (0, {| data := data buf; size := size_wrap (size buf + len);
                   capacity := capacity buf |}, m')
    | OutOfBounds => OutOfBounds
    | OutOfFuel => OutOfFuel
    end in
  if capacity buf <? need then
    match grow_capacity fuel
            (if capacity buf =? 0 then 1024
             else size_wrap (capacity buf * 2)) need with
    | Ret new_capacity =>
        match resize_buffer buf new_capacity q m with
        | Ret (r, buf', m') =>
            if negb (r =? 0) then Ret (-1, buf', m') else copy buf' m'
        | OutOfBounds => OutOfBounds
        | OutOfFuel => OutOfFuel
        end
    | OutOfBounds => OutOfBounds
    | OutOfFuel => OutOfFuel
    end
  else copy buf m.

(** ** [strtoul(nptr, &endptr, 10)] in the "C" locale

    [s] holds the bytes from [nptr] to the end of its block.  The result is
    the value returned and the offset of [endptr] from [nptr].  White space
    is skipped, one sign is accepted, the digits that follow are converted;
    without a digit nothing is converted and [endptr] is [nptr]; a value
    beyond [ULONG_MAX] gives [ULONG_MAX], and a minus sign negates the
    value in [unsigned long]. *)

Definition isspace (c : Z) : bool := (c =? 32) || ((9 <=? c) && (c <=? 13)).

Definition isdigit (c : Z) : bool := (48 <=? c) && (c <=? 57).

Fixpoint span_space (s : list (option Z)) : outcome nat :=
  match s with
  | Some c :: s' =>
      if isspace c then
        match span_space s' with
        | Ret n => Ret (S n)
        | OutOfBounds => OutOfBounds
        | OutOfFuel => OutOfFuel
        end
      else Ret O
  | _ => OutOfBounds
  end.

(** The digits at the head of [s]: how many, and their value after [acc]. *)
Fixpoint span_digits (s : list (option Z)) (acc : Z) : outcome (nat * Z) :=
  match s with
  | Some c :: s' =>
      if isdigit c then
        match span_digits s' (acc * 10 + (c - 48)) with
        | Ret (n, v) => Ret (S n, v)
        | OutOfBounds => OutOfBounds
        | OutOfFuel => OutOfFuel
        end
      else Ret (O, acc)
  | _ => OutOfBounds
  end.

Definition strtoul (s : list (option Z)) : outcome (Z * nat) :=
  match span_space s with
  | Ret ws =>
      let s1 := drop ws s in
      let '(sg, neg) :=
        match s1 with
        | Some 43 :: _ => (1%nat, false)
        | Some 45 :: _ => (1%nat, true)
        | _ => (O, false)
        end in
      match span_digits (drop sg s1) 0 with
      | Ret (O, _) => Ret (0, O)
      | Ret (nd, v) =>
          Ret (if SIZE_MAX <? v then SIZE_MAX
               else if neg then size_wrap (- v) else v,
               (ws + sg + nd)%nat)
      | OutOfBounds => OutOfBounds
      | OutOfFuel => OutOfFuel
      end
  | OutOfBounds => OutOfBounds
  | OutOfFuel => OutOfFuel
  end.

(** ** [process_jiffies]

    A [struct timespec *] is [None] when null and otherwise the structure
    it points to. *)
Definition process_jiffies (jiffies : Z) (output : option timespec) (rem : Z)
  : Z * option timespec :=
  match output with
  | None => (-1, None)
  | Some _ => (0, Some (jiffies_to_timespec jiffies rem))
  end.

(** ** [validate_and_convert]

    [p] is what [malloc] returns if it is called, [rem] the indeterminate
    local of [jiffies_to_timespec]. *)
Definition validate_and_convert (input_buf : option buffer)
    (output : option timespec) (p rem : Z) (m : memory)
  : outcome (Z * option timespec * memory) :=
  match input_buf, output with
  | Some buf, Some _ =>
      if 0 <? size buf then
        let m1 := malloc p (size_wrap (size buf + 1)) m in
        if p =? 0 then Ret (-1, output, m1)
        else
          match mem_blocks m1 !! data buf with
          | None => OutOfBounds
          | Some src =>
              match memcpy p 0 src (size buf) m1 with
              | Ret m2 =>
                  match store_byte p (size buf) 0 m2 with
                  | Ret m3 =>
                      match mem_blocks m3 !! p with
                      | None => OutOfBounds
                      | Some tmp =>
                          match strtoul tmp with
                          | Ret (jiffies, endptr) =>
                              match tmp !! endptr with
                              | Some (Some c) =>
                                  if negb (c =? 0)
                                  then Ret (-1, output, mfree p m3)
                                  else
                                    let '(r, out) :=
                                      process_jiffies jiffies output rem in
                                    Ret (r, out, mfree p m3)
                              | _ => OutOfBounds
                              end
                          | OutOfBounds => OutOfBounds
                          | OutOfFuel => OutOfFuel
                          end
                      end
                  | OutOfBounds => OutOfBounds
                  | OutOfFuel => OutOfFuel
                  end
              | OutOfBounds => OutOfBounds
              | OutOfFuel => OutOfFuel
              end
          end
      else
        let '(r, out) := process_jiffies 0 output rem in
        Ret (r, out, m)
  | _, _ => Ret (-1, output, m)
  end.

(** ** Vocabulary of the statements *)

(** The block behind [buf->data]; a null [data] stands for an empty
    block, as [realloc] takes it. *)
Definition buffer_block (buf : buffer) (m : memory)
  : option (list (option Z)) :=
  if data buf =? 0 then Some [] else mem_blocks m !! data buf.

(** The buffer owns a block of [capacity] bytes and uses the first [size]
    of them. *)
Definition buffer_ok (buf : buffer) (m : memory) : Prop :=
  0 <= size buf <= capacity buf /\
  exists block, buffer_block buf m = Some block /\
                Z.of_nat (length block) = capacity buf.

(** The bytes in use. *)
Definition buffer_content (buf : buffer) (m : memory) : list (option Z) :=
  match buffer_block buf m with
  | Some block => take (Z.to_nat (size buf)) block
  | None => []
  end.

(** Memory [m] after a block [p] has been allocated and freed again. *)
Definition after_convert (p : Z) (m : memory) : memory :=
  {| mem_alloc := {| live := live (mem_alloc m);
                     freed := p :: freed (mem_alloc m) |};
     mem_blocks := mem_blocks m |}.

(** A buffer at address 4096 holding [content] in a block of 8 bytes, and
    the memory it lives in, for the concrete scenarios. *)
Definition scenario_buffer (content : list Z) : buffer :=
  {| data := 4096; size := Z.of_nat (length content); capacity := 8 |}.

Definition scenario_memory (content : list Z) : memory :=
  {| mem_alloc := {| live := {[4096]}; freed := [] |};
     mem_blocks :=
       {[ 4096 := (Some <$> content)
                  ++ replicate (8 - length content) None ]} |}.

(** Decimal digits as characters, and their value. *)
Definition all_digits (ds : list Z) : Prop :=
  Forall (fun c => 48 <= c <= 57) ds.

Definition decimal_value (ds : list Z) : Z :=
  foldl (fun acc c => acc * 10 + (c - 48)) 0 ds.

End Sample.

(** * Properties of [core.c] *)

Module CoreTheory.
Import Core.

(** ** Machine arithmetic *)

Lemma size_wrap_small z : 0 <= z <= SIZE_MAX -> size_wrap z = z.
Proof. unfold size_wrap, SIZE_MAX. intros H. apply Z.mod_small. lia. Qed.

Lemma size_wrap_add_l a b : size_wrap (size_wrap a + b) = size_wrap (a + b).
Proof. unfold size_wrap. apply Zplus_mod_idemp_l. Qed.

Lemma int_of_size_small z : 0 <= z <= INT_MAX -> int_of_size z = z.
Proof.
  unfold int_of_size, INT_MAX. intros H.
  rewrite Z.mod_small by lia.
  destruct (Z.ltb_spec z (2 ^ 31)); lia.
Qed.

(** ** Array accesses *)

Lemma index_drop p i : index p i = drop (idx p) (arr p) !! i.
Proof. unfold index. by rewrite lookup_drop. Qed.

Lemma index_Some_drop p i seg :
  index p i = Some seg ->
  drop i (drop (idx p) (arr p)) = seg :: drop (S i) (drop (idx p) (arr p)).
Proof.
  rewrite index_drop. intros H.
  by rewrite (drop_S _ _ _ H).
Qed.

Lemma index_in_bounds p i :
  (i < length (drop (idx p) (arr p)))%nat -> exists seg, index p i = Some seg.
Proof.
  intros H. rewrite index_drop.
  destruct (lookup_lt_is_Some_2 _ _ H) as [seg Hseg]. eauto.
Qed.

Lemma segments_array_ptr l :
  segments (array_ptr l) (Z.of_nat (length l)) = l.
Proof.
  unfold segments, array_ptr. simpl.
  rewrite Nat2Z.id, drop_0. apply firstn_all.
Qed.

Lemma array_ptr_bounds l :
  (Z.to_nat (Z.of_nat (length l))
   <= length (drop (idx (array_ptr l)) (arr (array_ptr l))))%nat.
Proof. unfold array_ptr. simpl. rewrite Nat2Z.id, drop_0. lia. Qed.

(** ** The length sums of [safe_copy_data] *)

Lemma sum_iov_len_spec p n : forall i total,
  (i + n <= length (drop (idx p) (arr p)))%nat ->
  size_wrap total = total ->
  sum_iov_len p i n total =
    Ret (size_wrap (total + sum_len (take n (drop i (drop (idx p) (arr p)))))).
Proof.
  induction n as [|n IH]; intros i total Hlen Htot; simpl.
  - by rewrite Z.add_0_r, Htot.
  - destruct (index_in_bounds p i) as [seg Hseg]; [lia|].
    rewrite Hseg, (index_Some_drop _ _ _ Hseg). simpl.
    rewrite IH.
    + f_equal. rewrite size_wrap_add_l. f_equal. lia.
    + lia.
    + unfold size_wrap. by rewrite Z.mod_mod.
Qed.

Lemma total_length_spec p count :
  (Z.to_nat count <= length (drop (idx p) (arr p)))%nat ->
  total_length p count = Ret (size_wrap (sum_len (segments p count))).
Proof.
  intros H. unfold total_length, segments.
  rewrite sum_iov_len_spec by (simpl; try done; lia).
  reflexivity.
Qed.

Lemma sum_len_nonneg l : lengths_in_range l -> 0 <= sum_len l.
Proof.
  induction 1 as [|seg l Hseg _ IH]; simpl; lia.
Qed.

(** C6 (as the code has it).  [total_length] is the sum of the segment
    lengths reduced modulo 2^64: the additions of [safe_copy_data] are plain
    [size_t] additions, nothing checks them and no overflow error exists.
    The computed value is the true sum exactly when the true sum fits in
    [size_t]. *)
Theorem total_length_wraps (l : list iovec) :
  total_length (array_ptr l) (Z.of_nat (length l)) =
    Ret (sum_len l mod 2 ^ 64) /\
  (lengths_in_range l -> sum_len l <= SIZE_MAX ->
   total_length (array_ptr l) (Z.of_nat (length l)) = Ret (sum_len l)).
Proof.
  assert (Hspec : total_length (array_ptr l) (Z.of_nat (length l)) =
                  Ret (size_wrap (sum_len l))).
  { rewrite total_length_spec by apply array_ptr_bounds.
    by rewrite segments_array_ptr. }
  split; [exact Hspec|].
  intros Hrange Hfit. rewrite Hspec.
  rewrite size_wrap_small; [done|].
  split; [by apply sum_len_nonneg | done].
Qed.

Lemma total_length_wraps_witness :
  total_length (array_ptr [seg_of_len 10; seg_of_len 0; seg_of_len 15]) 3
    = Ret 25.
Proof.
  apply (proj2 (total_length_wraps
                  [seg_of_len 10; seg_of_len 0; seg_of_len 15])).
  - repeat constructor; simpl; unfold SIZE_MAX; lia.
  - simpl. unfold SIZE_MAX. lia.
Defined.

(** C6 (as the specification words it) fails: two segments of 2^63 bytes
    have a true sum of 2^64, beyond [SIZE_MAX], and the computed total is
    the wrapped value 0, returned as an ordinary result. *)
Lemma total_length_silent_wrap :
  let l := [seg_of_len (2 ^ 63); seg_of_len (2 ^ 63)] in
  lengths_in_range l /\
  SIZE_MAX < sum_len l /\
  total_length (array_ptr l) (Z.of_nat (length l)) = Ret 0.
Proof.
  simpl. split; [|split].
  - repeat constructor; simpl; unfold SIZE_MAX; lia.
  - unfold SIZE_MAX. simpl. lia.
  - reflexivity.
Qed.

(** ** [validate_iovec_lengths] *)

Lemma validate_from_spec p n : forall i,
  (i + n <= length (drop (idx p) (arr p)))%nat ->
  validate_from p i n =
    Ret (if decide (Exists too_large (take n (drop i (drop (idx p) (arr p)))))
         then -1 else 0).
Proof.
  induction n as [|n IH]; intros i Hlen; simpl.
  - reflexivity.
  - destruct (index_in_bounds p i) as [seg Hseg]; [lia|].
    rewrite Hseg, (index_Some_drop _ _ _ Hseg). simpl.
    destruct (Z.ltb_spec 1000000 (iov_len seg)) as [Hbig|Hok].
    + rewrite decide_True; [done|]. by apply Exists_cons_hd.
    + rewrite IH by lia.
      destruct (decide (Exists too_large (take n _))) as [H|H].
      * rewrite decide_True; [done|]. by apply Exists_cons_tl.
      * rewrite decide_False; [done|].
        intros H'. apply Exists_cons in H' as [H'|H']; [|done].
        unfold too_large in H'. lia.
Qed.

Lemma validate_iovec_lengths_spec p count :
  (Z.to_nat count <= length (drop (idx p) (arr p)))%nat ->
  validate_iovec_lengths p count =
    Ret (if decide (Exists too_large (segments p count)) then -1 else 0).
Proof.
  intros H. unfold validate_iovec_lengths, segments.
  by rewrite validate_from_spec.
Qed.

(** C8.  On every segment list [validate_iovec_lengths] returns -1 exactly
    when some segment is longer than the maximum (1,000,000 bytes) and 0
    otherwise, the empty list included. *)
Theorem validate_iovec_lengths_iff (l : list iovec) :
  validate_iovec_lengths (array_ptr l) (Z.of_nat (length l)) =
    Ret (if decide (Exists (fun seg => 1000000 < iov_len seg) l)
         then -1 else 0).
Proof.
  rewrite validate_iovec_lengths_spec by apply array_ptr_bounds.
  by rewrite segments_array_ptr.
Qed.

(** ** Memory effects of [process_iovec_segments] *)

Lemma fill_pattern_spec data n : forall j (h : heap),
  exists h', fill_pattern data j n h = Ret (tt, h') /\
    forall a,
      h' !! a =
        if decide (data + Z.of_nat j <= a < data + Z.of_nat j + Z.of_nat n)
        then Some (65 + (a - data) mod 26) else h !! a.
Proof.
  induction n as [|n IH]; intros j h; simpl.
  - exists h. split; [done|]. intros a. rewrite decide_False; [done | lia].
  - unfold bind, store.
    destruct (IH (S j) (<[data + Z.of_nat j := 65 + Z.of_nat j mod 26]> h))
      as (h' & Hrun & Hh').
    exists h'. split; [exact Hrun|]. intros a. rewrite Hh'.
    destruct (decide (data + Z.of_nat (S j) <= a
                      < data + Z.of_nat (S j) + Z.of_nat n)) as [Hin|Hout].
    + rewrite decide_True; [done | lia].
    + destruct (decide (a = data + Z.of_nat j)) as [->|Hne].
      * rewrite lookup_insert_eq, decide_True by lia.
        do 3 f_equal. lia.
      * rewrite lookup_insert_ne by done.
        rewrite decide_False; [done | lia].
Qed.

(** What one iteration of the outer loop does to memory. *)
Lemma process_segment_spec seg (h : heap) :
  exists h',
    (if (0 <? iov_len seg) && negb (iov_base seg =? 0)
     then fill_pattern (iov_base seg) 0 (Z.to_nat (iov_len seg))
     else ret tt) h = Ret (tt, h') /\
    forall a,
      h' !! a =
        if decide (filled a seg)
        then Some (65 + (a - iov_base seg) mod 26) else h !! a.
Proof.
  unfold filled, in_segment.
  destruct (Z.ltb_spec 0 (iov_len seg)) as [Hpos|Hzero]; simpl.
  - destruct (Z.eqb_spec (iov_base seg) 0) as [Hnull|Hbase]; simpl.
    + exists h. split; [done|]. intros a.
      rewrite decide_False; [done | tauto].
    + destruct (fill_pattern_spec (iov_base seg) (Z.to_nat (iov_len seg)) 0%nat h)
        as (h' & Hrun & Hh').
      exists h'. split; [exact Hrun|]. intros a. rewrite Hh'.
      destruct (decide (iov_base seg <= a < iov_base seg + iov_len seg))
        as [Hin|Hout].
      * rewrite !decide_True; [done | tauto | lia].
      * rewrite !decide_False; [done | tauto | lia].
  - exists h. split; [done|]. intros a.
    rewrite decide_False; [done|]. lia.
Qed.

Lemma process_from_spec p n : forall i (h : heap) u h',
  process_from p i n h = Ret (u, h') ->
  (n <= length (drop i (drop (idx p) (arr p))))%nat /\
  (forall a, ~ Exists (filled a) (take n (drop i (drop (idx p) (arr p)))) ->
             h' !! a = h !! a) /\
  (forall a, Exists (filled a) (take n (drop i (drop (idx p) (arr p)))) ->
     exists seg, seg ∈ take n (drop i (drop (idx p) (arr p))) /\
       filled a seg /\ h' !! a = Some (65 + (a - iov_base seg) mod 26)).
Proof.
  induction n as [|n IH]; intros i h u h' Hrun; simpl in Hrun.
  - inversion Hrun; subst. split; [lia|]. split; [done|].
    intros a Hex. simpl in Hex. by apply Exists_nil in Hex.
  - unfold bind at 1 in Hrun. unfold load_iovec in Hrun.
    destruct (index p i) as [seg0|] eqn:Hidx; [|done].
    rewrite (index_Some_drop _ _ _ Hidx). simpl.
    unfold bind at 1 in Hrun.
    destruct (process_segment_spec seg0 h) as (h1 & Hstep & Hh1).
    rewrite Hstep in Hrun.
    destruct (IH _ _ _ _ Hrun) as (Hlen & Hframe & Hfill).
    split; [simpl; lia|]. split.
    + intros a Hout. rewrite Hframe.
      * rewrite Hh1, decide_False; [done|].
        intros Hin. apply Hout. by apply Exists_cons_hd.
      * intros Hin. apply Hout. by apply Exists_cons_tl.
    + intros a Hex.
      destruct (decide (Exists (filled a)
                          (take n (drop (S i) (drop (idx p) (arr p))))))
        as [Hlater|Hnot].
      * destruct (Hfill a Hlater) as (s & Hs & Hsin & Hval).
        exists s. split; [by apply elem_of_cons; right | done].
      * apply Exists_cons in Hex as [Hhd|Htl]; [|done].
        exists seg0. split; [by apply elem_of_cons; left|].
        split; [done|].
        rewrite Hframe by done.
        by rewrite Hh1, decide_True.
Qed.

Lemma process_iovec_segments_spec p count (h : heap) u h' :
  process_iovec_segments p count h = Ret (u, h') ->
  (Z.to_nat count <= length (drop (idx p) (arr p)))%nat /\
  (forall a, ~ Exists (filled a) (segments p count) -> h' !! a = h !! a) /\
  (forall a, Exists (filled a) (segments p count) ->
     exists seg, seg ∈ segments p count /\
       filled a seg /\ h' !! a = Some (65 + (a - iov_base seg) mod 26)).
Proof.
  unfold process_iovec_segments, segments. intros Hrun.
  apply process_from_spec in Hrun. by rewrite drop_0 in Hrun.
Qed.

(** [process_iovec_segments] runs to completion when the array holds
    [count] elements. *)
Lemma process_from_returns p n : forall i (h : heap),
  (i + n <= length (drop (idx p) (arr p)))%nat ->
  exists h', process_from p i n h = Ret (tt, h').
Proof.
  induction n as [|n IH]; intros i h Hlen; simpl.
  - by exists h.
  - destruct (index_in_bounds p i) as [seg Hseg]; [lia|].
    unfold bind at 1. unfold load_iovec. rewrite Hseg.
    unfold bind at 1.
    destruct (process_segment_spec seg h) as (h1 & -> & _).
    apply IH. lia.
Qed.

Lemma filled_in_segments a l : Exists (filled a) l -> in_segments a l.
Proof.
  unfold in_segments. intros H. eapply Exists_impl; [exact H|].
  intros seg [Hin _]. exact Hin.
Qed.

(** Memory that agrees on every address of a list has the same contents. *)
Lemma contents_ext (h h' : heap) l :
  (forall a, in_segments a l -> h' !! a = h !! a) ->
  contents h' l = contents h l.
Proof.
  unfold contents, in_segments.
  induction l as [|seg l IH]; intros Hagree; simpl; [done|].
  f_equal.
  - unfold segment_bytes. apply map_ext_in. intros j Hj.
    apply in_seq in Hj. apply Hagree. apply Exists_cons_hd.
    unfold in_segment. lia.
  - apply IH. intros a Ha. apply Hagree. by apply Exists_cons_tl.
Qed.

(** ** [safe_copy_data] and [perform_io_operation] *)

Lemma sum_iov_len_in_bounds p n : forall i total t,
  sum_iov_len p i n total = Ret t ->
  (n <= length (drop i (drop (idx p) (arr p))))%nat.
Proof.
  induction n as [|n IH]; intros i total t Hrun; simpl in Hrun; [lia|].
  destruct (index p i) as [seg|] eqn:Hidx; [|done].
  rewrite (index_Some_drop _ _ _ Hidx). simpl.
  apply IH in Hrun. lia.
Qed.

Lemma total_length_in_bounds p count t :
  total_length p count = Ret t ->
  (Z.to_nat count <= length (drop (idx p) (arr p)))%nat.
Proof.
  unfold total_length. intros H.
  apply sum_iov_len_in_bounds in H. by rewrite drop_0 in H.
Qed.

(** [safe_copy_data] contains no store: it hands memory back as it got it. *)
Lemma safe_copy_data_heap fuel src_iov src_count dst_iov dst_count
    (h : heap) r h' :
  safe_copy_data fuel src_iov src_count dst_iov dst_count h = Ret (r, h') ->
  h' = h.
Proof.
  unfold safe_copy_data, bind, lift, ret.
  destruct (total_length src_iov src_count) as [ts| |]; [|done|done].
  destruct (total_length dst_iov dst_count) as [td| |]; [|done|done].
  destruct (td <? ts); [congruence|].
  destruct (advance_each _ _ _ _ _); congruence.
Qed.

Lemma safe_copy_data_capacity fuel src_iov src_count dst_iov dst_count
    total_src total_dst (h : heap) :
  total_length src_iov src_count = Ret total_src ->
  total_length dst_iov dst_count = Ret total_dst ->
  total_dst < total_src ->
  safe_copy_data fuel src_iov src_count dst_iov dst_count h = Ret (-1, h).
Proof.
  intros Hs Hd Hlt. unfold safe_copy_data, bind, lift, ret.
  rewrite Hs, Hd.
  destruct (Z.ltb_spec total_dst total_src); [done | lia].
Qed.

(** C7.  When the source total, as the code computes it, exceeds the
    destination total, [safe_copy_data] returns -1 and leaves the whole of
    memory as it was.  Reached through [perform_io_operation] with both
    lists accepted by the length validator, the call also returns -1, and
    the contents of a destination that does not overlap the source are the
    same after the call as before it. *)
Theorem copy_insufficient_capacity fuel src_iov src_count dst_iov dst_count
    total_src total_dst (h : heap) :
  total_length src_iov src_count = Ret total_src ->
  total_length dst_iov dst_count = Ret total_dst ->
  total_dst < total_src ->
  safe_copy_data fuel src_iov src_count dst_iov dst_count h = Ret (-1, h) /\
  (validate_iovec_lengths src_iov src_count = Ret 0 ->
   validate_iovec_lengths dst_iov dst_count = Ret 0 ->
   non_overlapping (segments src_iov src_count) (segments dst_iov dst_count) ->
   exists h',
     perform_io_operation fuel src_iov src_count dst_iov dst_count h
       = Ret (-1, h') /\
     contents h' (segments dst_iov dst_count)
       = contents h (segments dst_iov dst_count)).
Proof.
  intros Hs Hd Hlt. split.
  - by eapply safe_copy_data_capacity.
  - intros Hvs Hvd Hdisj.
    unfold perform_io_operation, bind, lift, ret.
    rewrite Hvs, Hvd. simpl.
    destruct (process_from_returns src_iov (Z.to_nat src_count) 0 h)
      as [h1 Hproc].
    { apply total_length_in_bounds in Hs. lia. }
    fold (process_iovec_segments src_iov src_count) in Hproc.
    rewrite Hproc.
    exists h1. split.
    + by eapply safe_copy_data_capacity.
    + apply contents_ext. intros a Ha.
      apply process_iovec_segments_spec in Hproc as (_ & Hframe & _).
      apply Hframe. intros Hsrc.
      apply (Hdisj a); [by apply filled_in_segments | done].
Qed.

Lemma copy_insufficient_capacity_witness :
  let src := array_ptr [{| iov_base := 1000; iov_len := 8 |}] in
  let dst := array_ptr [{| iov_base := 2000; iov_len := 4 |}] in
  safe_copy_data 0 src 1 dst 1 ∅ = Ret (-1, ∅) /\
  exists h',
    perform_io_operation 0 src 1 dst 1 ∅ = Ret (-1, h') /\
    contents h' (segments dst 1) = contents ∅ (segments dst 1).
Proof.
  intros src dst.
  destruct (copy_insufficient_capacity 0 src 1 dst 1 8 4 ∅) as [H1 H2];
    [reflexivity | reflexivity | lia |].
  split; [exact H1|].
  apply H2; [reflexivity | reflexivity |].
  intros a Hsrc Hdst.
  apply Exists_cons in Hsrc as [Hsrc|Hsrc]; [|by apply Exists_nil in Hsrc].
  apply Exists_cons in Hdst as [Hdst|Hdst]; [|by apply Exists_nil in Hdst].
  unfold in_segment in *. simpl in *. lia.
Defined.

(** ** The loop of [__iov_iter_advance_iov] *)

Lemma drop_cons_inv {A} (l : list A) k x d :
  drop k l = x :: d -> l !! k = Some x /\ drop (S k) l = d.
Proof.
  intros H. split.
  - rewrite <- (Nat.add_0_r k), <- lookup_drop, H. reflexivity.
  - pose proof (drop_drop l 1 k) as Hdd. rewrite H in Hdd.
    rewrite Nat.add_1_r in Hdd. rewrite <- Hdd. reflexivity.
Qed.

Lemma INT_MAX_le_SIZE_MAX : INT_MAX <= SIZE_MAX.
Proof. unfold INT_MAX, SIZE_MAX. lia. Qed.

(** One iteration, when no arithmetic of the body wraps or truncates: the
    offset is inside the segment and the segment length fits in [int]. *)
Lemma advance_loop_step fuel l k base bytes seg :
  l !! k = Some seg ->
  0 <= base <= iov_len seg -> iov_len seg <= INT_MAX ->
  0 <= bytes <= SIZE_MAX ->
  advance_loop (S fuel) {| arr := l; idx := k |} base bytes =
    if (bytes =? 0) && negb (iov_len seg =? 0)
    then Ret ({| arr := l; idx := k |}, base)
    else if iov_len seg - base <=? bytes
         then advance_loop fuel {| arr := l; idx := S k |} 0
                (bytes - (iov_len seg - base))
         else advance_loop fuel {| arr := l; idx := k |} (base + bytes) 0.
Proof.
  intros Hk Hbase Hint Hbytes.
  pose proof INT_MAX_le_SIZE_MAX as Hmax.
  cbn [advance_loop]. unfold deref. cbn [arr idx]. rewrite Hk.
  destruct (Z.eqb_spec bytes 0) as [Hb0|Hb0];
    destruct (Z.eqb_spec (iov_len seg) 0) as [Hl0|Hl0];
    cbn [negb orb andb]; try reflexivity.
  all: rewrite (size_wrap_small (iov_len seg - base)) by lia.
  all: destruct (Z.ltb_spec bytes (iov_len seg - base)) as [Hlt|Hge];
       [ rewrite (int_of_size_small bytes) by lia
       | rewrite (int_of_size_small (iov_len seg - base)) by lia ].
  all: rewrite !size_wrap_small by lia.
  all: destruct (Z.leb_spec (iov_len seg - base) bytes); try lia.
  all: unfold ptr_incr; cbn [arr idx].
  all: repeat match goal with
         | |- context [?a =? ?b] => destruct (Z.eqb_spec a b); try lia
         end.
  all: repeat f_equal; lia.
Qed.

(** More fuel does not change a run that has finished. *)
Lemma advance_loop_fuel_mono fuel : forall p base bytes fuel',
  (fuel <= fuel')%nat ->
  advance_loop fuel p base bytes <> OutOfFuel ->
  advance_loop fuel' p base bytes = advance_loop fuel p base bytes.
Proof.
  induction fuel as [|fuel IH]; intros p base bytes fuel' Hle Hfin;
    [done|].
  destruct fuel' as [|fuel']; [lia|].
  cbn [advance_loop] in *.
  destruct (deref p) as [seg|]; [|done].
  destruct (negb (bytes =? 0) || (iov_len seg =? 0)); [|done].
  cbv zeta in *.
  destruct (iov_len seg =? _); apply IH; (lia || done).
Qed.

(** Advancing by less than what remains: the loop returns, with the cursor
    on a segment of the list and the offset inside it, having consumed
    exactly [bytes]. *)
Lemma advance_loop_within l fuel : forall k base bytes seg d,
  drop k l = seg :: d ->
  lengths_fit_int (seg :: d) ->
  0 <= base <= iov_len seg ->
  0 <= bytes <= SIZE_MAX ->
  bytes < sum_len (seg :: d) - base ->
  (length d + 2 <= fuel)%nat ->
  exists k' base' seg',
    advance_loop fuel {| arr := l; idx := k |} base bytes
      = Ret ({| arr := l; idx := k' |}, base') /\
    l !! k' = Some seg' /\
    0 <= base' <= iov_len seg' /\
    sum_len (drop k' l) - base' = sum_len (seg :: d) - base - bytes.
Proof.
  induction fuel as [|fuel IH];
    intros k base bytes seg d Hdrop Hfit Hbase Hbytes Hlt Hfuel; [lia|].
  destruct (drop_cons_inv _ _ _ _ Hdrop) as [Hk Hrest].
  pose proof (Forall_inv Hfit) as Hseg. cbv beta in Hseg.
  rewrite (advance_loop_step _ _ _ _ _ seg) by (done || lia).
  destruct ((bytes =? 0) && negb (iov_len seg =? 0)) eqn:Hstop.
  - exists k, base, seg. rewrite Hdrop. repeat split; (done || lia).
  - destruct (Z.leb_spec (iov_len seg - base) bytes) as [Hge|Hless].
    + (* the segment is consumed to its end: on to the next one *)
      simpl in Hlt.
      destruct d as [|seg1 d1]; [simpl in Hlt; lia|].
      destruct (IH (S k) 0 (bytes - (iov_len seg - base)) seg1 d1)
        as (k' & base' & seg' & Hrun & Hk' & Hb' & Hrem).
      * done.
      * by apply Forall_inv_tail in Hfit.
      * apply Forall_inv_tail, Forall_inv in Hfit. cbv beta in Hfit. lia.
      * lia.
      * lia.
      * simpl in Hfuel. lia.
      * exists k', base', seg'. rewrite Hrun.
        repeat split; try (done || lia).
        rewrite Hrem. simpl. lia.
    + (* the request ends inside this segment *)
      destruct fuel as [|fuel]; [lia|].
      rewrite (advance_loop_step _ _ _ _ _ seg) by (done || lia).
      destruct (Z.eqb_spec (iov_len seg) 0) as [Hz|Hnz]; [lia|].
      cbn [Z.eqb andb negb].
      exists k, (base + bytes), seg. rewrite Hdrop.
      repeat split; (done || lia).
Qed.

(** Advancing from the start of a segment by exactly what remains: each
    segment takes one iteration, and the iteration after the last one reads
    the element past the end of the array. *)
Lemma advance_loop_exact l fuel : forall d k,
  drop k l = d ->
  lengths_fit_int d ->
  sum_len d <= SIZE_MAX ->
  advance_loop (length d + 1 + fuel) {| arr := l; idx := k |} 0 (sum_len d)
    = OutOfBounds.
Proof.
  induction d as [|seg d IH]; intros k Hdrop Hfit Hsum.
  - cbn [length Nat.add advance_loop]. unfold deref. cbn [arr idx].
    assert (Hk : l !! k = None).
    { apply lookup_ge_None. apply drop_nil_inv in Hdrop. lia. }
    by rewrite Hk.
  - destruct (drop_cons_inv _ _ _ _ Hdrop) as [Hk Hrest].
    pose proof (Forall_inv Hfit) as Hseg. cbv beta in Hseg.
    pose proof (Forall_inv_tail Hfit) as Hfit'.
    assert (0 <= sum_len d).
    { clear -Hfit'. induction Hfit'; simpl; lia. }
    change (sum_len (seg :: d)) with (iov_len seg + sum_len d) in *.
    cbn [length Nat.add].
    rewrite (advance_loop_step _ _ _ _ _ seg) by (done || lia).
    destruct (Z.eqb_spec (iov_len seg + sum_len d) 0) as [Hz|Hnz];
      destruct (Z.eqb_spec (iov_len seg) 0) as [Hl|Hl];
      cbn [andb negb]; try lia.
    all: destruct (Z.leb_spec (iov_len seg - 0) (iov_len seg + sum_len d));
      [|lia].
    all: replace (iov_len seg + sum_len d - (iov_len seg - 0))
           with (sum_len d) by lia.
    all: apply IH; (done || lia).
Qed.

(** ** [__iov_iter_advance_iov] *)

(** Exposes the cursor vocabulary on a concrete iterator. *)
Ltac unfold_iter :=
  unfold iter_invariant, over_whole_array, exhausted, remaining_bytes,
    segment_index, offset_in_segment, initialize_iov_iter, array_ptr,
    seg_of_len, deref, lengths_in_range, lengths_fit_int, SIZE_MAX, INT_MAX
    in *;
  simpl in *.

(** The fast path: one addition, no loop and no comparison. *)
Lemma advance_single_segment fuel (i : iov_iter) (bytes : Z) :
  nr_segs i = 1 ->
  __iov_iter_advance_iov fuel i bytes =
    Ret {| iov := iov i; nr_segs := nr_segs i;
           iov_offset := size_wrap (iov_offset i + bytes) |}.
Proof.
  intros H. unfold __iov_iter_advance_iov. by rewrite H.
Qed.

(** C3 (as the code has it).  [__iov_iter_advance_iov] has no failure
    result.  On the single-segment fast path it accepts every request,
    whatever remains in the segment: it returns with the segment pointer and
    the segment count as they were and the offset increased by [bytes]
    modulo 2^64.  Only the iterator is written. *)
Theorem advance_fast_path_unchecked fuel (i : iov_iter) (bytes : Z) :
  nr_segs i = 1 ->
  __iov_iter_advance_iov fuel i bytes =
    Ret {| iov := iov i; nr_segs := nr_segs i;
           iov_offset := size_wrap (iov_offset i + bytes) |}.
Proof. apply advance_single_segment. Qed.

Lemma advance_fast_path_unchecked_witness :
  __iov_iter_advance_iov 0
    (initialize_iov_iter (array_ptr [seg_of_len 100]) 1) 150 =
  Ret {| iov := array_ptr [seg_of_len 100]; nr_segs := 1;
         iov_offset := size_wrap (0 + 150) |}.
Proof.
  apply (advance_fast_path_unchecked 0
           (initialize_iov_iter (array_ptr [seg_of_len 100]) 1) 150).
  reflexivity.
Defined.

(** C3 (as the specification words it) fails: on a single segment of 100
    bytes a request for 150 bytes exceeds what remains, and the call returns
    normally with the offset at 150. *)
Lemma advance_overrun_accepted :
  let i := initialize_iov_iter (array_ptr [seg_of_len 100]) 1 in
  remaining_bytes i < 150 /\
  __iov_iter_advance_iov 16 i 150 =
    Ret {| iov := array_ptr [seg_of_len 100]; nr_segs := 1;
           iov_offset := 150 |}.
Proof.
  split; [unfold_iter; lia | reflexivity].
Qed.

(** C4 (as the specification words it) fails: on a single segment of 100
    bytes a request for 150 bytes starts from an iterator that satisfies the
    invariant and leaves one that does not, the cursor being on segment 0
    with offset 150 beyond its length 100. *)
Lemma advance_breaks_invariant :
  let i := initialize_iov_iter (array_ptr [seg_of_len 100]) 1 in
  let i' := {| iov := array_ptr [seg_of_len 100]; nr_segs := 1;
               iov_offset := 150 |} in
  over_whole_array i /\ iter_invariant i /\
  __iov_iter_advance_iov 16 i 150 = Ret i' /\
  ~ exhausted i' /\ ~ iter_invariant i'.
Proof.
  cbv zeta. split; [reflexivity|]. split; [|split; [reflexivity|]].
  - unfold_iter. split; [lia|]. split; [|lia].
    intros _. eexists. split; [reflexivity|]. simpl. lia.
  - assert (Hne : ~ exhausted {| iov := array_ptr [seg_of_len 100];
                                 nr_segs := 1; iov_offset := 150 |}).
    { unfold_iter. lia. }
    split; [exact Hne|].
    intros (_ & Ha & _). destruct (Ha Hne) as (seg & Hseg & Hoff).
    unfold_iter. inversion Hseg; subst. simpl in Hoff. lia.
Qed.

(** The general path leaves the invariant too once a length exceeds
    [INT_MAX], and then with bytes still to come.  On the list
    [[2^32 - 1; SIZE_MAX; SIZE_MAX]] a request for [SIZE_MAX] bytes, less
    than what remains, makes [copy] the [int] conversion of 2^32 - 1, which
    is -1: [bytes] wraps to 0, the offset wraps to 2^64 - 1, and the call
    returns with the cursor on segment 0 beyond its length. *)
Lemma advance_truncation_breaks_invariant :
  let l := [seg_of_len 4294967295; seg_of_len SIZE_MAX; seg_of_len SIZE_MAX] in
  let i := initialize_iov_iter (array_ptr l) 3 in
  let i' := {| iov := array_ptr l; nr_segs := 3;
               iov_offset := 18446744073709551615 |} in
  lengths_in_range l /\ over_whole_array i /\ iter_invariant i /\
  SIZE_MAX < remaining_bytes i /\
  __iov_iter_advance_iov 4 i SIZE_MAX = Ret i' /\
  0 < remaining_bytes i' /\ ~ iter_invariant i'.
Proof.
  cbv zeta. split; [|split; [reflexivity|split; [|split; [|split; [reflexivity|]]]]].
  - unfold_iter. repeat constructor; simpl; lia.
  - unfold_iter. split; [lia|]. split; [|lia].
    intros _. eexists. split; [reflexivity|]. simpl. lia.
  - unfold_iter. lia.
  - assert (Hpos : 0 < remaining_bytes
             {| iov := array_ptr [seg_of_len 4294967295; seg_of_len SIZE_MAX;
                                  seg_of_len SIZE_MAX];
                nr_segs := 3; iov_offset := 18446744073709551615 |}).
    { unfold_iter. lia. }
    split; [exact Hpos|].
    intros (_ & Ha & _). destruct Ha as (seg & Hseg & Hoff).
    { unfold exhausted. lia. }
    unfold_iter. inversion Hseg; subst. simpl in Hoff. lia.
Qed.

(** C4 (as the code has it).  A request that stays within what remains
    preserves the invariant and consumes exactly [bytes]: on the fast path
    for [bytes] up to the remaining count; on the general path, where the
    segment lengths fit in [int], for [bytes] below the remaining count. *)
Theorem advance_within_preserves_invariant fuel (i : iov_iter) (bytes : Z) :
  over_whole_array i ->
  iter_invariant i ->
  lengths_in_range (arr (iov i)) ->
  0 <= bytes <= SIZE_MAX ->
  (nr_segs i = 1 -> bytes <= remaining_bytes i ->
   exists i', __iov_iter_advance_iov fuel i bytes = Ret i' /\
     over_whole_array i' /\ iter_invariant i' /\
     segment_index i' = segment_index i /\
     remaining_bytes i' = remaining_bytes i - bytes) /\
  (nr_segs i <> 1 -> lengths_fit_int (arr (iov i)) ->
   bytes < remaining_bytes i ->
   (length (arr (iov i)) + 2 <= fuel)%nat ->
   exists i', __iov_iter_advance_iov fuel i bytes = Ret i' /\
     over_whole_array i' /\ iter_invariant i' /\
     (segment_index i' < length (arr (iov i')))%nat /\
     remaining_bytes i' = remaining_bytes i - bytes).
Proof.
  destruct i as [[l k] nr off].
  unfold over_whole_array, iter_invariant, exhausted, remaining_bytes,
    segment_index, offset_in_segment, deref. cbn [iov arr idx nr_segs iov_offset].
  intros Hwhole (Hidx & Ha & Hb) Hrange Hbytes. split.
  - (* fast path *)
    intros Hone Hle. subst nr.
    unfold __iov_iter_advance_iov. cbn [iov arr idx nr_segs iov_offset].
    rewrite Hone. cbn [Z.eqb Pos.eqb].
    destruct l as [|seg [|]]; cbn [length] in Hone; try lia.
    eexists. split; [reflexivity|].
    cbn [iov arr idx nr_segs iov_offset].
    destruct k as [|k].
    + rewrite drop_0 in *. cbn [sum_len foldr] in *.
      apply Forall_inv in Hrange. cbv beta in Hrange.
      assert (Hoff : 0 <= off <= iov_len seg).
      { destruct (decide (iov_len seg + 0 - off = 0)) as [He|Hne]; [lia|].
        destruct (Ha Hne) as (seg' & Hseg' & Hoff'). by inversion Hseg'; subst. }
      rewrite size_wrap_small by lia.
      split; [reflexivity|]. split; [|split; [reflexivity | lia]].
      split; [simpl; lia|]. split; [|simpl; lia].
      intros _. exists seg. split; [reflexivity | lia].
    + assert (k = 0%nat) by (cbn [length] in Hidx; lia). subst k.
      specialize (Hb eq_refl). cbn in Hb, Hle |- *.
      assert (off = 0) by lia. assert (bytes = 0) by lia. subst.
      split; [reflexivity|]. split; [|split; reflexivity].
      split; [simpl; lia|]. split; [|reflexivity].
      intros Hne. exfalso. apply Hne. reflexivity.
  - (* general path *)
    intros Hgen Hfit Hlt Hfuel.
    assert (Hne : sum_len (drop k l) - off <> 0) by lia.
    destruct (Ha Hne) as (seg & Hseg & Hoff).
    pose proof (drop_S _ _ _ Hseg) as Hdrop.
    destruct (advance_loop_within l fuel k off bytes seg (drop (S k) l))
      as (k' & base' & seg' & Hrun & Hk' & Hb' & Hrem).
    + exact Hdrop.
    + rewrite <- Hdrop. unfold lengths_fit_int in *. by apply Forall_drop.
    + exact Hoff.
    + exact Hbytes.
    + rewrite <- Hdrop. exact Hlt.
    + rewrite length_drop. lia.
    + unfold __iov_iter_advance_iov. cbn [iov arr idx nr_segs iov_offset].
      destruct (Z.eqb_spec nr 1) as [|_]; [done|].
      rewrite Hrun. eexists. split; [reflexivity|].
      cbn [iov arr idx nr_segs iov_offset].
      apply lookup_lt_Some in Hk' as Hlt'.
      rewrite <- Hdrop in Hrem.
      split; [exact Hwhole|]. split; [|split; [exact Hlt' | exact Hrem]].
      split; [lia|]. split; [|lia].
      intros _. exists seg'. by split.
Qed.

Lemma advance_within_preserves_invariant_witness :
  (exists i',
     __iov_iter_advance_iov 0
       (initialize_iov_iter (array_ptr [seg_of_len 100]) 1) 100 = Ret i' /\
     over_whole_array i' /\ iter_invariant i' /\
     segment_index i' = 0%nat /\ remaining_bytes i' = 100 - 100) /\
  (exists i',
     __iov_iter_advance_iov 5
       (initialize_iov_iter
          (array_ptr [seg_of_len 10; seg_of_len 0; seg_of_len 15]) 3) 12
       = Ret i' /\
     over_whole_array i' /\ iter_invariant i' /\
     (segment_index i' < length (arr (iov i')))%nat /\
     remaining_bytes i' = 25 - 12).
Proof.
  split.
  - apply (advance_within_preserves_invariant 0
             (initialize_iov_iter (array_ptr [seg_of_len 100]) 1) 100).
    + reflexivity.
    + unfold_iter. split; [lia|]. split; [|lia].
      intros _. eexists. split; [reflexivity | simpl; lia].
    + unfold_iter. repeat constructor; simpl; lia.
    + unfold SIZE_MAX. lia.
    + reflexivity.
    + unfold_iter. lia.
  - apply (advance_within_preserves_invariant 5
             (initialize_iov_iter
                (array_ptr [seg_of_len 10; seg_of_len 0; seg_of_len 15]) 3) 12).
    + reflexivity.
    + unfold_iter. split; [lia|]. split; [|lia].
      intros _. eexists. split; [reflexivity | simpl; lia].
    + unfold_iter. repeat constructor; simpl; lia.
    + unfold SIZE_MAX. lia.
    + unfold_iter. lia.
    + unfold_iter. repeat constructor; simpl; lia.
    + unfold_iter. lia.
    + unfold_iter. lia.
Defined.

(** On the general path, a request for exactly the remaining bytes of a
    list never returns: after the last segment the loop condition reads
    the element past the end of the array. *)
Lemma advance_exact_overruns (l : list iovec) fuel :
  length l <> 1%nat ->
  lengths_fit_int l ->
  sum_len l <= SIZE_MAX ->
  __iov_iter_advance_iov (length l + 1 + fuel)
    (initialize_iov_iter (array_ptr l) (Z.of_nat (length l))) (sum_len l)
  = OutOfBounds.
Proof.
  intros Hlen Hfit Hsum.
  unfold __iov_iter_advance_iov, initialize_iov_iter, array_ptr.
  cbn [iov nr_segs iov_offset].
  destruct (Z.eqb_spec (Z.of_nat (length l)) 1) as [H1|_]; [lia|].
  rewrite (advance_loop_exact l fuel l 0); (done || by rewrite ?drop_0).
Qed.

Lemma advance_exact_never_returns (l : list iovec) fuel :
  length l <> 1%nat ->
  lengths_fit_int l ->
  sum_len l <= SIZE_MAX ->
  returns (__iov_iter_advance_iov fuel
             (initialize_iov_iter (array_ptr l) (Z.of_nat (length l)))
             (sum_len l)) = false.
Proof.
  intros Hlen Hfit Hsum.
  pose proof (advance_loop_exact l fuel l 0 (drop_0 l) Hfit Hsum) as Hoob.
  unfold __iov_iter_advance_iov, initialize_iov_iter, array_ptr.
  cbn [iov nr_segs iov_offset].
  destruct (Z.eqb_spec (Z.of_nat (length l)) 1) as [H1|_]; [lia|].
  destruct (advance_loop fuel {| arr := l; idx := 0 |} 0 (sum_len l))
    as [[p base]| |] eqn:Hrun; [|done|done].
  rewrite (advance_loop_fuel_mono fuel) in Hoob; [congruence | lia |].
  by rewrite Hrun.
Qed.

(** C2, at the input where the code departs from it.  The list is
    [[10; 0]], the cursor is at its start and the request is for the 10
    bytes that remain.  The first iteration consumes segment 0, the second
    skips the empty segment 1, and the third evaluates [iov->iov_len] on
    element 2 of a two-element array: the call does not return, for any
    amount of fuel. *)
Theorem advance_trailing_empty_segment_overruns :
  let i := initialize_iov_iter
             (array_ptr [seg_of_len 10; seg_of_len 0]) 2 in
  remaining_bytes i = 10 /\
  (forall fuel, __iov_iter_advance_iov (3 + fuel) i 10 = OutOfBounds) /\
  (forall fuel, returns (__iov_iter_advance_iov fuel i 10) = false).
Proof.
  cbv zeta. split; [reflexivity|]. split.
  - intros fuel. reflexivity.
  - intros [|[|[|fuel]]]; reflexivity.
Qed.

(** A loop that spins inside the array.  With a first segment of 2^32 bytes
    and a request for the 2^32 + 1 bytes of the list, [copy] is the [int]
    conversion of 2^32, which is 0: no byte is consumed, the cursor stays
    where it is, and every iteration repeats the first one. *)
Lemma advance_truncated_copy_spins fuel :
  let l := [seg_of_len 4294967296; seg_of_len 1] in
  sum_len l = 4294967297 /\
  __iov_iter_advance_iov fuel (initialize_iov_iter (array_ptr l) 2)
    4294967297 = OutOfFuel.
Proof.
  cbv zeta. split; [reflexivity|].
  unfold __iov_iter_advance_iov, initialize_iov_iter.
  cbn [nr_segs iov iov_offset Z.eqb Pos.eqb].
  assert (Hspin :
    advance_loop fuel (array_ptr [seg_of_len 4294967296; seg_of_len 1]) 0
      4294967297 = OutOfFuel).
  { induction fuel as [|fuel IH]; [reflexivity | exact IH]. }
  by rewrite Hspin.
Qed.

(** ** The copy operation as a whole *)

(** The three ways [perform_io_operation] returns. *)
Lemma perform_io_operation_inv fuel src_iov src_count dst_iov dst_count
    (h : heap) r h' :
  perform_io_operation fuel src_iov src_count dst_iov dst_count h
    = Ret (r, h') ->
  (r = -1 /\ h' = h /\
   exists v, validate_iovec_lengths src_iov src_count = Ret v /\ v <> 0) \/
  (r = -1 /\ h' = h /\
   validate_iovec_lengths src_iov src_count = Ret 0 /\
   exists v, validate_iovec_lengths dst_iov dst_count = Ret v /\ v <> 0) \/
  (validate_iovec_lengths src_iov src_count = Ret 0 /\
   validate_iovec_lengths dst_iov dst_count = Ret 0 /\
   process_iovec_segments src_iov src_count h = Ret (tt, h') /\
   safe_copy_data fuel src_iov src_count dst_iov dst_count h' = Ret (r, h')).
Proof.
  unfold perform_io_operation, bind, lift, ret. intros Hrun.
  destruct (validate_iovec_lengths src_iov src_count) as [vs| |];
    [|done|done].
  destruct (Z.eqb_spec vs 0) as [Hvs|Hvs]; cbn [negb] in Hrun.
  2:{ left. inversion Hrun; subst. eauto. }
  rewrite Hvs. clear vs Hvs.
  destruct (validate_iovec_lengths dst_iov dst_count) as [vd| |];
    [|done|done].
  destruct (Z.eqb_spec vd 0) as [Hvd|Hvd]; cbn [negb] in Hrun.
  2:{ right; left. inversion Hrun; subst. repeat split; eauto. }
  rewrite Hvd. clear vd Hvd.
  right; right.
  destruct (process_iovec_segments src_iov src_count h)
    as [[[] h1]| |] eqn:Hproc; [|done|done].
  pose proof (safe_copy_data_heap _ _ _ _ _ _ _ _ Hrun) as ->.
  done.
Qed.

(** With at most one source segment the iterator is advanced on its fast
    path only, and the walk over the source returns. *)
Lemma advance_each_short fuel src_iov src_count :
  src_count <= 1 ->
  (Z.to_nat src_count <= length (drop (idx src_iov) (arr src_iov)))%nat ->
  exists i,
    advance_each fuel src_iov 0 (Z.to_nat src_count)
      (initialize_iov_iter src_iov src_count) = Ret i.
Proof.
  intros Hle Hlen.
  destruct (Z.to_nat src_count) as [|[|n]] eqn:Hn; [| |lia].
  - eexists. reflexivity.
  - assert (src_count = 1) as -> by lia.
    destruct (index_in_bounds src_iov 0) as [seg Hseg]; [lia|].
    cbn [advance_each]. rewrite Hseg.
    rewrite advance_single_segment by reflexivity.
    eexists. reflexivity.
Qed.

(** With enough capacity the result of [safe_copy_data] is decided by the
    walk of the iterator over the source alone. *)
Lemma safe_copy_data_enough fuel src_iov src_count dst_iov dst_count
    total_src total_dst (h : heap) :
  total_length src_iov src_count = Ret total_src ->
  total_length dst_iov dst_count = Ret total_dst ->
  total_src <= total_dst ->
  safe_copy_data fuel src_iov src_count dst_iov dst_count h =
    match advance_each fuel src_iov 0 (Z.to_nat src_count)
            (initialize_iov_iter src_iov src_count) with
    | Ret _ => Ret (0, h)
    | OutOfBounds => OutOfBounds
    | OutOfFuel => OutOfFuel
    end.
Proof.
  intros Hs Hd Hle. unfold safe_copy_data, bind, lift, ret.
  rewrite Hs, Hd.
  destruct (Z.ltb_spec total_dst total_src); [lia|].
  by destruct (advance_each _ _ _ _ _).
Qed.

(** C1 (as the code has it).  For lists that pass the length validator,
    do not overlap and leave the destination at least as long as the
    source, the copy operation returns 0 whenever the source has at most one
    segment, and whenever it returns it returns 0 with the contents of the
    destination exactly as they were before the call: no byte is
    transferred. *)
Theorem copy_leaves_destination_unchanged fuel src_iov src_count dst_iov
    dst_count total_src total_dst (h : heap) :
  validate_iovec_lengths src_iov src_count = Ret 0 ->
  validate_iovec_lengths dst_iov dst_count = Ret 0 ->
  total_length src_iov src_count = Ret total_src ->
  total_length dst_iov dst_count = Ret total_dst ->
  total_src <= total_dst ->
  non_overlapping (segments src_iov src_count) (segments dst_iov dst_count) ->
  (src_count <= 1 ->
   exists h',
     perform_io_operation fuel src_iov src_count dst_iov dst_count h
       = Ret (0, h')) /\
  (forall r h',
     perform_io_operation fuel src_iov src_count dst_iov dst_count h
       = Ret (r, h') ->
     r = 0 /\
     contents h' (segments dst_iov dst_count)
       = contents h (segments dst_iov dst_count)).
Proof.
  intros Hvs Hvd Hs Hd Hle Hdisj. split.
  - intros Hshort.
    pose proof (total_length_in_bounds _ _ _ Hs) as Hlen.
    destruct (process_from_returns src_iov (Z.to_nat src_count) 0 h)
      as [h1 Hproc]; [lia|].
    fold (process_iovec_segments src_iov src_count) in Hproc.
    destruct (advance_each_short fuel src_iov src_count Hshort Hlen)
      as [i Hwalk].
    exists h1. unfold perform_io_operation, bind, lift, ret.
    rewrite Hvs, Hvd. cbn [Z.eqb negb]. rewrite Hproc.
    rewrite (safe_copy_data_enough _ _ _ _ _ _ _ _ Hs Hd Hle).
    by rewrite Hwalk.
  - intros r h' Hrun.
    destruct (perform_io_operation_inv _ _ _ _ _ _ _ _ Hrun)
      as [(_ & _ & v & Hv & Hne) | [(_ & _ & _ & v & Hv & Hne) |
          (_ & _ & Hproc & Hcopy)]].
    + rewrite Hvs in Hv. congruence.
    + rewrite Hvd in Hv. congruence.
    + split.
      * rewrite (safe_copy_data_enough _ _ _ _ _ _ _ _ Hs Hd Hle) in Hcopy.
        destruct (advance_each _ _ _ _ _); congruence.
      * apply contents_ext. intros a Ha.
        apply process_iovec_segments_spec in Hproc as (_ & Hframe & _).
        apply Hframe. intros Hsrc.
        apply (Hdisj a); [by apply filled_in_segments | done].
Qed.

(** The scenario of the counterexamples: a one-byte source holding ['Z']
    and a one-byte destination holding 0. *)
Lemma scenario_non_overlapping :
  non_overlapping [{| iov_base := 1000; iov_len := 1 |}]
                  [{| iov_base := 2000; iov_len := 1 |}].
Proof.
  intros a Hsrc Hdst.
  apply Exists_cons in Hsrc as [Hsrc|Hsrc]; [|by apply Exists_nil in Hsrc].
  apply Exists_cons in Hdst as [Hdst|Hdst]; [|by apply Exists_nil in Hdst].
  unfold in_segment in *. simpl in *. lia.
Qed.

Lemma copy_leaves_destination_unchanged_witness :
  let src := array_ptr [{| iov_base := 1000; iov_len := 1 |}] in
  let dst := array_ptr [{| iov_base := 2000; iov_len := 1 |}] in
  let h : heap := <[1000 := 90]> (<[2000 := 0]> ∅) in
  (1 <= 1 -> exists h', perform_io_operation 0 src 1 dst 1 h = Ret (0, h')) /\
  (forall r h',
     perform_io_operation 0 src 1 dst 1 h = Ret (r, h') ->
     r = 0 /\ contents h' (segments dst 1) = contents h (segments dst 1)).
Proof.
  intros src dst h.
  apply (copy_leaves_destination_unchanged 0 src 1 dst 1 1 1 h).
  - reflexivity.
  - reflexivity.
  - reflexivity.
  - reflexivity.
  - lia.
  - exact scenario_non_overlapping.
Defined.

(** C1 (as the specification words it) fails.  The copy succeeds, and
    afterwards the destination still holds its old byte 0, which is neither
    the byte ['Z'] the source held before the call nor the byte ['A'] it
    holds after; [safe_copy_data] on its own leaves all of memory alone. *)
Lemma copy_transfers_no_byte :
  let src := [{| iov_base := 1000; iov_len := 1 |}] in
  let dst := [{| iov_base := 2000; iov_len := 1 |}] in
  let h : heap := <[1000 := 90]> (<[2000 := 0]> ∅) in
  non_overlapping src dst /\
  validate_iovec_lengths (array_ptr src) 1 = Ret 0 /\
  validate_iovec_lengths (array_ptr dst) 1 = Ret 0 /\
  total_length (array_ptr src) 1 = Ret 1 /\
  total_length (array_ptr dst) 1 = Ret 1 /\
  safe_copy_data 16 (array_ptr src) 1 (array_ptr dst) 1 h = Ret (0, h) /\
  exists h',
    perform_io_operation 16 (array_ptr src) 1 (array_ptr dst) 1 h
      = Ret (0, h') /\
    contents h src = [Some 90] /\
    contents h' src = [Some 65] /\
    take 1 (contents h' dst) = [Some 0] /\
    take 1 (contents h dst) = [Some 0].
Proof.
  cbv zeta. split; [exact scenario_non_overlapping|].
  repeat (split; [reflexivity|]).
  eexists. split; [reflexivity|].
  repeat split; vm_compute; reflexivity.
Qed.

(** C5 (as the code has it).  Whenever the copy operation returns, with 0
    or with -1, every address outside the source segments holds what it
    held before the call: destination memory is never written.  The source
    is what the operation writes: once both lists have passed the length
    validator, every byte of a source segment with a non-null base holds
    ['A' + (j mod 26)], [j] being its offset in the last such segment that
    contains it.  When the validator rejects a list, memory is unchanged. *)
Theorem copy_writes_only_source fuel src_iov src_count dst_iov dst_count
    (h : heap) r h' :
  perform_io_operation fuel src_iov src_count dst_iov dst_count h
    = Ret (r, h') ->
  (forall a, ~ in_segments a (segments src_iov src_count) ->
             h' !! a = h !! a) /\
  (validate_iovec_lengths src_iov src_count = Ret 0 ->
   validate_iovec_lengths dst_iov dst_count = Ret 0 ->
   forall a, Exists (filled a) (segments src_iov src_count) ->
     exists seg, seg ∈ segments src_iov src_count /\ filled a seg /\
       h' !! a = Some (65 + (a - iov_base seg) mod 26)) /\
  (validate_iovec_lengths src_iov src_count <> Ret 0 \/
   validate_iovec_lengths dst_iov dst_count <> Ret 0 -> h' = h).
Proof.
  intros Hrun.
  destruct (perform_io_operation_inv _ _ _ _ _ _ _ _ Hrun)
    as [(_ & -> & v & Hv & Hne) | [(_ & -> & _ & v & Hv & Hne) |
        (Hvs & Hvd & Hproc & _)]].
  - split; [done|]. split; [|done].
    intros Hvs. rewrite Hvs in Hv. congruence.
  - split; [done|]. split; [|done].
    intros _ Hvd. rewrite Hvd in Hv. congruence.
  - apply process_iovec_segments_spec in Hproc as (_ & Hframe & Hfill).
    split; [|split].
    + intros a Hout. apply Hframe. intros Hin. apply Hout.
      by apply filled_in_segments.
    + intros _ _. exact Hfill.
    + intros [Hbad|Hbad]; congruence.
Qed.

Lemma copy_writes_only_source_witness :
  let src := array_ptr [{| iov_base := 1000; iov_len := 1 |}] in
  let dst := array_ptr [{| iov_base := 2000; iov_len := 1 |}] in
  let h : heap := <[1000 := 90]> (<[2000 := 0]> ∅) in
  let h' : heap := <[1000 := 65]> h in
  perform_io_operation 0 src 1 dst 1 h = Ret (0, h') /\
  (forall a, ~ in_segments a (segments src 1) -> h' !! a = h !! a).
Proof.
  intros src dst h h'.
  assert (Hrun : perform_io_operation 0 src 1 dst 1 h = Ret (0, h'))
    by reflexivity.
  split; [exact Hrun|].
  exact (proj1 (copy_writes_only_source 0 src 1 dst 1 h 0 h' Hrun)).
Defined.

(** C5 (as the specification words it) fails: the call succeeds and the
    source byte at address 1000, ['Z'] before the call, is ['A'] after it,
    while the destination byte at 2000 is untouched. *)
Lemma copy_overwrites_source :
  let src := array_ptr [{| iov_base := 1000; iov_len := 1 |}] in
  let dst := array_ptr [{| iov_base := 2000; iov_len := 1 |}] in
  let h : heap := <[1000 := 90]> (<[2000 := 0]> ∅) in
  exists h',
    perform_io_operation 16 src 1 dst 1 h = Ret (0, h') /\
    in_segments 1000 (segments src 1) /\
    h !! 1000 = Some 90 /\ h' !! 1000 = Some 65 /\
    h' !! 2000 = h !! 2000.
Proof.
  cbv zeta. eexists. split; [reflexivity|]. split.
  - apply Exists_cons_hd. unfold in_segment. simpl. lia.
  - repeat split; vm_compute; reflexivity.
Qed.

(** A three-segment source inside a longer array: the iterator stops on
    the array's fourth element, the call returns 0, source bytes hold the
    pattern and the destination bytes are still unset. *)
Example copy_three_segments :
  let src := array_ptr [ {| iov_base := 1000; iov_len := 10 |};
                         {| iov_base := 1100; iov_len := 0 |};
                         {| iov_base := 1200; iov_len := 15 |};
                         {| iov_base := 1300; iov_len := 7 |} ] in
  let dst := array_ptr [ {| iov_base := 2000; iov_len := 2 |};
                         {| iov_base := 2100; iov_len := 0 |};
                         {| iov_base := 2200; iov_len := 30 |} ] in
  match perform_io_operation 8 src 3 dst 3 ∅ with
  | Ret (r, h') =>
      Some (r, h' !! 1000, h' !! 1214, h' !! 1300,
            take 3 (contents h' (segments dst 3)))
  | _ => None
  end = Some (0, Some 65, Some 79, None, [None; None; None]).
Proof. vm_compute. reflexivity. Qed.

(** * Further properties of [core.c] *)

(** ** Where the general path can stop *)

Lemma advance_loop_stops_on_segment fuel : forall p base bytes p' base',
  advance_loop fuel p base bytes = Ret (p', base') ->
  arr p' = arr p /\ (idx p <= idx p')%nat /\
  exists seg, deref p' = Some seg /\ iov_len seg <> 0.
Proof.
  induction fuel as [|fuel IH]; intros p base bytes p' base' Hrun; [done|].
  cbn [advance_loop] in Hrun.
  destruct (deref p) as [seg|] eqn:Hseg; [|done].
  destruct (Z.eqb_spec bytes 0) as [Hb|Hb];
    destruct (Z.eqb_spec (iov_len seg) 0) as [Hl|Hl];
    cbn [negb orb] in Hrun.
  2:{ inversion Hrun; subst. repeat split; [lia|]. eauto. }
  all: cbv zeta in Hrun.
  all: destruct (iov_len seg =? _);
       apply IH in Hrun as (Harr & Hidx & Hstop);
       cbn [ptr_incr arr idx] in *; repeat split; (done || lia).
Qed.

(** X1.  Whenever the general path ([nr_segs] other than 1) returns, the
    cursor is on an element inside the array whose length is not zero; the
    cursor has not moved to an earlier element, and [nr_segs] is what it
    was, however many segments were passed. *)
Theorem advance_general_path_stops_on_nonempty fuel (i i' : iov_iter)
    (bytes : Z) :
  nr_segs i <> 1 ->
  __iov_iter_advance_iov fuel i bytes = Ret i' ->
  (exists seg, deref (iov i') = Some seg /\ iov_len seg <> 0) /\
  arr (iov i') = arr (iov i) /\
  (segment_index i <= segment_index i')%nat /\
  nr_segs i' = nr_segs i.
Proof.
  intros Hgen Hrun. unfold __iov_iter_advance_iov in Hrun.
  destruct (Z.eqb_spec (nr_segs i) 1) as [|_]; [done|].
  destruct (advance_loop fuel (iov i) (iov_offset i) bytes)
    as [[p base]| |] eqn:Hloop; [|done|done].
  inversion Hrun; subst. cbn [iov nr_segs].
  apply advance_loop_stops_on_segment in Hloop as (Harr & Hidx & Hstop).
  unfold segment_index. cbn [iov]. done.
Qed.

Lemma advance_general_path_stops_on_nonempty_witness :
  let i := initialize_iov_iter
             (array_ptr [seg_of_len 0; seg_of_len 0; seg_of_len 7]) 3 in
  let i' := {| iov := {| arr := [seg_of_len 0; seg_of_len 0; seg_of_len 7];
                         idx := 2 |};
               nr_segs := 3; iov_offset := 0 |} in
  __iov_iter_advance_iov 3 i 0 = Ret i' /\
  (exists seg, deref (iov i') = Some seg /\ iov_len seg <> 0) /\
  arr (iov i') = arr (iov i) /\
  (segment_index i <= segment_index i')%nat /\
  nr_segs i' = nr_segs i.
Proof.
  intros i i'.
  assert (Hrun : __iov_iter_advance_iov 3 i 0 = Ret i') by reflexivity.
  split; [exact Hrun|].
  apply (advance_general_path_stops_on_nonempty 3 i i' 0); [|exact Hrun].
  simpl. lia.
Defined.

(** ** The cursor as a position in the byte stream *)

Lemma sum_len_app l1 l2 : sum_len (l1 ++ l2) = sum_len l1 + sum_len l2.
Proof. induction l1 as [|seg l1 IH]; simpl; lia. Qed.

Lemma sum_len_take_drop k l : sum_len (take k l) + sum_len (drop k l) = sum_len l.
Proof. by rewrite <- sum_len_app, take_drop. Qed.

Lemma lengths_fit_int_nonneg l : lengths_fit_int l -> 0 <= sum_len l.
Proof. induction 1; simpl; lia. Qed.

(** Advancing by less than what remains, from a cursor that is inside its
    segment or at the start of one: the loop stops strictly inside a
    segment. *)
Lemma advance_loop_within_strict l fuel : forall k base bytes seg d,
  drop k l = seg :: d ->
  lengths_fit_int (seg :: d) ->
  0 <= base -> base < iov_len seg \/ base = 0 ->
  0 <= bytes <= SIZE_MAX ->
  bytes < sum_len (seg :: d) - base ->
  (length d + 2 <= fuel)%nat ->
  exists k' base' seg',
    advance_loop fuel {| arr := l; idx := k |} base bytes
      = Ret ({| arr := l; idx := k' |}, base') /\
    l !! k' = Some seg' /\
    0 <= base' < iov_len seg' /\
    sum_len (drop k' l) - base' = sum_len (seg :: d) - base - bytes.
Proof.
  induction fuel as [|fuel IH];
    intros k base bytes seg d Hdrop Hfit Hb0 Hbase Hbytes Hlt Hfuel; [lia|].
  destruct (drop_cons_inv _ _ _ _ Hdrop) as [Hk Hrest].
  pose proof (Forall_inv Hfit) as Hseg. cbv beta in Hseg.
  rewrite (advance_loop_step _ _ _ _ _ seg) by (done || lia).
  destruct (Z.eqb_spec bytes 0) as [Hz|Hnz];
    destruct (Z.eqb_spec (iov_len seg) 0) as [Hl|Hl]; cbn [andb negb].
  2:{ exists k, base, seg. rewrite Hdrop. repeat split; (done || lia). }
  all: destruct (Z.leb_spec (iov_len seg - base) bytes) as [Hge|Hless];
    try lia.
  1,2,3: change (sum_len (seg :: d)) with (iov_len seg + sum_len d) in *;
    destruct d as [|seg1 d1]; [simpl in Hlt; lia|];
    destruct (IH (S k) 0 (bytes - (iov_len seg - base)) seg1 d1)
      as (k' & base' & seg' & Hrun & Hk' & Hb' & Hrem);
    [ done
    | by apply Forall_inv_tail in Hfit
    | lia
    | by right
    | lia
    | lia
    | simpl in Hfuel; lia
    | exists k', base', seg'; rewrite Hrun;
      repeat split; try (done || lia) ].
  destruct fuel as [|fuel]; [lia|].
  rewrite (advance_loop_step _ _ _ _ _ seg) by (done || lia).
  destruct (Z.eqb_spec (iov_len seg) 0) as [|_]; [lia|].
  cbn [Z.eqb andb negb].
  exists k, (base + bytes), seg. rewrite Hdrop.
  repeat split; (done || lia).
Qed.

Lemma advance_from_cursor l nr k base bytes fuel seg :
  nr <> 1 ->
  lengths_fit_int l ->
  l !! k = Some seg ->
  0 <= base -> base < iov_len seg \/ base = 0 ->
  0 <= bytes <= SIZE_MAX ->
  bytes < sum_len (drop k l) - base ->
  (length l + 2 <= fuel)%nat ->
  exists k' base' seg',
    __iov_iter_advance_iov fuel
      {| iov := {| arr := l; idx := k |}; nr_segs := nr; iov_offset := base |}
      bytes
    = Ret {| iov := {| arr := l; idx := k' |}; nr_segs := nr;
             iov_offset := base' |} /\
    l !! k' = Some seg' /\
    0 <= base' < iov_len seg' /\
    sum_len (drop k' l) - base' = sum_len (drop k l) - base - bytes.
Proof.
  intros Hgen Hfit Hk Hb0 Hbase Hbytes Hlt Hfuel.
  pose proof (drop_S _ _ _ Hk) as Hdrop.
  destruct (advance_loop_within_strict l fuel k base bytes seg (drop (S k) l))
    as (k' & base' & seg' & Hrun & Hk' & Hb' & Hrem).
  - exact Hdrop.
  - rewrite <- Hdrop. by apply Forall_drop.
  - exact Hb0.
  - exact Hbase.
  - exact Hbytes.
  - by rewrite <- Hdrop.
  - rewrite length_drop. lia.
  - exists k', base', seg'.
    unfold __iov_iter_advance_iov. cbn [iov nr_segs iov_offset].
    destruct (Z.eqb_spec nr 1) as [|_]; [done|].
    rewrite Hrun. rewrite <- Hdrop in Hrem. done.
Qed.

Lemma sum_len_drop_le l k k' :
  lengths_fit_int l -> (k <= k')%nat ->
  sum_len (drop k' l) <= sum_len (drop k l).
Proof.
  intros Hfit Hle.
  replace k' with (k + (k' - k))%nat by lia.
  rewrite <- drop_drop.
  pose proof (sum_len_take_drop (k' - k) (drop k l)) as Hsplit.
  assert (0 <= sum_len (take (k' - k) (drop k l))).
  { apply lengths_fit_int_nonneg. by apply Forall_take, Forall_drop. }
  lia.
Qed.

(** A cursor strictly inside a segment is determined by what remains
    behind it. *)
Lemma cursor_unique l k1 o1 s1 k2 o2 s2 :
  lengths_fit_int l ->
  l !! k1 = Some s1 -> 0 <= o1 < iov_len s1 ->
  l !! k2 = Some s2 -> 0 <= o2 < iov_len s2 ->
  sum_len (drop k1 l) - o1 = sum_len (drop k2 l) - o2 ->
  k1 = k2 /\ o1 = o2.
Proof.
  intros Hfit Hk1 Ho1 Hk2 Ho2 Heq.
  assert (Hstep : forall k o s k' ,
    l !! k = Some s -> 0 <= o < iov_len s -> (k < k')%nat ->
    sum_len (drop k' l) < sum_len (drop k l) - o).
  { intros k o s k' Hk Ho Hlt.
    pose proof (sum_len_drop_le l (S k) k' Hfit ltac:(lia)) as Hle.
    rewrite (drop_S _ _ _ Hk). simpl. lia. }
  assert (Hnn : forall k, 0 <= sum_len (drop k l)).
  { intros k. apply lengths_fit_int_nonneg. by apply Forall_drop. }
  destruct (Nat.lt_trichotomy k1 k2) as [Hlt|[->|Hgt]].
  - pose proof (Hstep _ _ _ _ Hk1 Ho1 Hlt). lia.
  - rewrite Hk1 in Hk2. inversion Hk2; subst. split; [done | lia].
  - pose proof (Hstep _ _ _ _ Hk2 Ho2 Hgt). lia.
Qed.

(** X2.  On a list that takes the general path and whose lengths fit in
    [int], advancing a fresh iterator by [n] bytes, [n] below the total,
    returns with the cursor at logical position [n]: strictly inside
    segment [k] at offset [off], the lengths of the [k] segments before it
    and [off] adding up to [n]. *)
Theorem advance_reaches_position (l : list iovec) (n : Z) (fuel : nat) :
  length l <> 1%nat ->
  lengths_fit_int l ->
  0 <= n < sum_len l -> n <= SIZE_MAX ->
  (length l + 2 <= fuel)%nat ->
  exists k off seg,
    __iov_iter_advance_iov fuel
      (initialize_iov_iter (array_ptr l) (Z.of_nat (length l))) n
    = Ret {| iov := {| arr := l; idx := k |};
             nr_segs := Z.of_nat (length l); iov_offset := off |} /\
    l !! k = Some seg /\
    0 <= off < iov_len seg /\
    sum_len (take k l) + off = n.
Proof.
  intros Hlen Hfit Hn Hmax Hfuel.
  assert (Hnr : Z.of_nat (length l) <> 1) by lia.
  assert (H0 : exists seg0, l !! 0%nat = Some seg0).
  { destruct l as [|seg0 d]; [simpl in Hn; lia | by exists seg0]. }
  destruct H0 as [seg0 H0].
  assert (Hrem0 : n < sum_len (drop 0 l) - 0) by (rewrite drop_0; lia).
  destruct (advance_from_cursor l _ 0 0 n fuel seg0 Hnr Hfit H0
              ltac:(done) (or_intror eq_refl) (conj (proj1 Hn) Hmax)
              Hrem0 Hfuel)
    as (k & off & seg & Hrun & Hk & Hoff & Hrem).
  exists k, off, seg. split; [exact Hrun|]. split; [exact Hk|].
  split; [exact Hoff|].
  pose proof (sum_len_take_drop k l). rewrite drop_0 in Hrem. lia.
Qed.

Lemma advance_reaches_position_witness :
  let l := [seg_of_len 10; seg_of_len 0; seg_of_len 15] in
  exists k off seg,
    __iov_iter_advance_iov 5
      (initialize_iov_iter (array_ptr l) (Z.of_nat (length l))) 10
    = Ret {| iov := {| arr := l; idx := k |};
             nr_segs := Z.of_nat (length l); iov_offset := off |} /\
    l !! k = Some seg /\
    0 <= off < iov_len seg /\
    sum_len (take k l) + off = 10.
Proof.
  intros l.
  apply (advance_reaches_position l 10 5).
  - simpl. lia.
  - repeat constructor; simpl; unfold INT_MAX; lia.
  - simpl. lia.
  - unfold SIZE_MAX. lia.
  - simpl. lia.
Defined.

(** X3.  On the general path two advances in a row leave the iterator
    exactly where one advance by the sum does, as long as the sum is below
    the total length of the list. *)
Theorem advance_twice_is_advance_sum (l : list iovec) (a b : Z) (fuel : nat) :
  length l <> 1%nat ->
  lengths_fit_int l ->
  0 <= a -> 0 <= b -> a + b < sum_len l -> a + b <= SIZE_MAX ->
  (length l + 2 <= fuel)%nat ->
  exists i1 i2,
    __iov_iter_advance_iov fuel
      (initialize_iov_iter (array_ptr l) (Z.of_nat (length l))) a = Ret i1 /\
    __iov_iter_advance_iov fuel i1 b = Ret i2 /\
    __iov_iter_advance_iov fuel
      (initialize_iov_iter (array_ptr l) (Z.of_nat (length l))) (a + b)
      = Ret i2.
Proof.
  intros Hlen Hfit Ha Hb Hsum Hmax Hfuel.
  assert (Hnr : Z.of_nat (length l) <> 1) by lia.
  assert (H0 : exists seg0, l !! 0%nat = Some seg0).
  { destruct l as [|seg0 d]; [simpl in Hsum; lia | by exists seg0]. }
  destruct H0 as [seg0 H0].
  assert (Hd0 : sum_len (drop 0 l) = sum_len l) by (by rewrite drop_0).
  destruct (advance_from_cursor l _ 0 0 a fuel seg0 Hnr Hfit H0
              ltac:(done) (or_intror eq_refl))
    as (k1 & o1 & s1 & Hrun1 & Hk1 & Ho1 & Hrem1); [lia | lia | done |].
  destruct (advance_from_cursor l _ k1 o1 b fuel s1 Hnr Hfit Hk1)
    as (k2 & o2 & s2 & Hrun2 & Hk2 & Ho2 & Hrem2);
    [lia | left; lia | lia | lia | done |].
  destruct (advance_from_cursor l _ 0 0 (a + b) fuel seg0 Hnr Hfit H0
              ltac:(done) (or_intror eq_refl))
    as (k3 & o3 & s3 & Hrun3 & Hk3 & Ho3 & Hrem3); [lia | lia | done |].
  destruct (cursor_unique l k2 o2 s2 k3 o3 s3) as [Hk Ho];
    [done | done | done | done | done | lia |].
  subst k3 o3.
  eexists _, _. split; [exact Hrun1|]. split; [exact Hrun2 | exact Hrun3].
Qed.

Lemma advance_twice_is_advance_sum_witness :
  let l := [seg_of_len 10; seg_of_len 0; seg_of_len 15] in
  let i0 := initialize_iov_iter (array_ptr l) (Z.of_nat (length l)) in
  exists i1 i2,
    __iov_iter_advance_iov 5 i0 7 = Ret i1 /\
    __iov_iter_advance_iov 5 i1 9 = Ret i2 /\
    __iov_iter_advance_iov 5 i0 (7 + 9) = Ret i2.
Proof.
  intros l i0.
  apply (advance_twice_is_advance_sum l 7 9 5).
  - simpl. lia.
  - repeat constructor; simpl; unfold INT_MAX; lia.
  - lia.
  - lia.
  - simpl. lia.
  - unfold SIZE_MAX. lia.
  - simpl. lia.
Defined.

(** ** The walk of [safe_copy_data] over its source *)






Lemma total_length_array_ptr (l : list iovec) :
  total_length (array_ptr l) (Z.of_nat (length l))
    = Ret (size_wrap (sum_len l)).
Proof.
  rewrite total_length_spec by apply array_ptr_bounds.
  by rewrite segments_array_ptr.
Qed.




(** The driver's own call: three source segments [[10; 0; 15]] in an array
    of three.  The third advance consumes the last segment and the loop
    condition then reads a fourth element. *)
Example main_scenario_overruns :
  let src := array_ptr [ {| iov_base := 1000; iov_len := 10 |};
                         {| iov_base := 1100; iov_len := 0 |};
                         {| iov_base := 1200; iov_len := 15 |} ] in
  let dst := array_ptr [ {| iov_base := 2000; iov_len := 10 |};
                         {| iov_base := 2100; iov_len := 0 |};
                         {| iov_base := 2200; iov_len := 15 |} ] in
  perform_io_operation 8 src 3 dst 3 ∅ = OutOfBounds.
Proof. vm_compute. reflexivity. Qed.

Lemma capacity_check_compares_wrapped_sums_aux fuel (src dst : list iovec)
    (h : heap) :
  safe_copy_data fuel (array_ptr src) (Z.of_nat (length src))
    (array_ptr dst) (Z.of_nat (length dst)) h = Ret (-1, h) ->
  size_wrap (sum_len dst) < size_wrap (sum_len src).
Proof.
  pose proof (total_length_array_ptr src) as Hs.
  pose proof (total_length_array_ptr dst) as Hd.
  intros Hrun.
  destruct (Z.lt_ge_cases (size_wrap (sum_len dst)) (size_wrap (sum_len src)))
    as [|Hge]; [done|].
  rewrite (safe_copy_data_enough _ _ _ _ _ _ _ _ Hs Hd Hge) in Hrun.
  destruct (advance_each _ _ _ _ _); congruence.
Qed.

(** X5.  The capacity check of [safe_copy_data] compares the two sums as
    they come out of the [size_t] additions: on whole lists the call
    returns -1 exactly when the destination sum modulo 2^64 is below the
    source sum modulo 2^64, so a source whose true length wraps around is
    let through. *)
Theorem capacity_check_compares_wrapped_sums fuel (src dst : list iovec)
    (h : heap) :
  safe_copy_data fuel (array_ptr src) (Z.of_nat (length src))
    (array_ptr dst) (Z.of_nat (length dst)) h = Ret (-1, h)
  <-> size_wrap (sum_len dst) < size_wrap (sum_len src).
Proof.
  split.
  - apply capacity_check_compares_wrapped_sums_aux.
  - intros Hlt.
    eapply safe_copy_data_capacity;
      [apply total_length_array_ptr | apply total_length_array_ptr | done].
Qed.

Lemma capacity_check_compares_wrapped_sums_witness :
  let src := [seg_of_len 8] in
  let dst := [seg_of_len 4] in
  size_wrap (sum_len dst) < size_wrap (sum_len src) /\
  safe_copy_data 0 (array_ptr src) (Z.of_nat (length src))
    (array_ptr dst) (Z.of_nat (length dst)) ∅ = Ret (-1, ∅).
Proof.
  intros src dst.
  assert (Hlt : size_wrap (sum_len dst) < size_wrap (sum_len src))
    by (vm_compute; reflexivity).
  split; [exact Hlt|].
  exact (proj2 (capacity_check_compares_wrapped_sums 0 src dst ∅) Hlt).
Defined.

(** A source of 2^64 bytes passes the check against a one-byte
    destination. *)
Example oversized_source_passes_capacity_check :
  let src := [seg_of_len (2 ^ 63); seg_of_len (2 ^ 63)] in
  let dst := [seg_of_len 1] in
  sum_len dst < sum_len src /\
  safe_copy_data 4 (array_ptr src) 2 (array_ptr dst) 1 ∅ <> Ret (-1, ∅).
Proof.
  cbv zeta. split; [vm_compute; reflexivity|].
  intros H.
  apply (capacity_check_compares_wrapped_sums_aux 4
           [seg_of_len (2 ^ 63); seg_of_len (2 ^ 63)] [seg_of_len 1] ∅) in H.
  vm_compute in H. discriminate.
Qed.

(** ** [validate_iovec_lengths] on any count *)

Lemma validate_from_any_count (l : list iovec) n : forall i,
  validate_from (array_ptr l) i n =
    if decide (Exists too_large (take n (drop i l))) then Ret (-1)
    else if decide (n <= length (drop i l))%nat then Ret 0 else OutOfBounds.
Proof.
  induction n as [|n IH]; intros i; cbn [validate_from].
  - rewrite decide_False by (rewrite take_0; by intros H%Exists_nil).
    rewrite decide_True by lia. reflexivity.
  - unfold index, array_ptr. cbn [arr idx Nat.add].
    destruct (l !! i) as [seg|] eqn:Hi.
    + rewrite (drop_S _ _ _ Hi). cbn [take length].
      destruct (Z.ltb_spec 1000000 (iov_len seg)) as [Hbig|Hok].
      * rewrite decide_True; [done|]. by apply Exists_cons_hd.
      * specialize (IH (S i)). unfold array_ptr in IH. rewrite IH.
        destruct (decide (Exists too_large (take n (drop (S i) l))))
          as [Hex|Hno].
        -- rewrite decide_True; [done|]. by apply Exists_cons_tl.
        -- rewrite (decide_False
                      (P := Exists too_large (seg :: take n (drop (S i) l)))).
           2:{ intros H. apply Exists_cons in H as [H|H]; [|done].
               unfold too_large in H. lia. }
           destruct (decide (n <= length (drop (S i) l))%nat).
           ++ rewrite decide_True; [done | lia].
           ++ rewrite decide_False; [done | lia].
    + apply lookup_ge_None in Hi. rewrite drop_ge by done.
      rewrite take_nil.
      rewrite decide_False by (by intros H%Exists_nil).
      rewrite decide_False; [done | simpl; lia].
Qed.

(** X6.  [validate_iovec_lengths] stops at the first segment longer than
    1,000,000: it returns -1 as soon as one of the first [count] elements of
    the array is too long, whatever follows it; without such an element it
    returns 0 when the array holds [count] elements, and otherwise reads
    past the end of the array. *)
Theorem validate_iovec_lengths_any_count (l : list iovec) (count : Z) :
  validate_iovec_lengths (array_ptr l) count =
    if decide (Exists (fun seg => 1000000 < iov_len seg)
                 (take (Z.to_nat count) l))
    then Ret (-1)
    else if decide (Z.to_nat count <= length l)%nat then Ret 0
         else OutOfBounds.
Proof.
  unfold validate_iovec_lengths.
  rewrite validate_from_any_count, drop_0. reflexivity.
Qed.

(** ** Return values of [perform_io_operation] *)

(** X7.  On whole lists a call of [perform_io_operation] that returns gives
    -1 exactly when a source or destination segment is longer than
    1,000,000 or the destination sum modulo 2^64 is below the source sum
    modulo 2^64, and 0 otherwise. *)
Theorem perform_io_operation_result fuel (src dst : list iovec)
    (h : heap) r h' :
  perform_io_operation fuel (array_ptr src) (Z.of_nat (length src))
    (array_ptr dst) (Z.of_nat (length dst)) h = Ret (r, h') ->
  r = if decide (Exists too_large src \/ Exists too_large dst \/
                 size_wrap (sum_len dst) < size_wrap (sum_len src))
      then -1 else 0.
Proof.
  intros Hrun.
  pose proof (validate_iovec_lengths_spec (array_ptr src) _
                (array_ptr_bounds src)) as Hvs.
  pose proof (validate_iovec_lengths_spec (array_ptr dst) _
                (array_ptr_bounds dst)) as Hvd.
  rewrite segments_array_ptr in Hvs, Hvd.
  destruct (perform_io_operation_inv _ _ _ _ _ _ _ _ Hrun)
    as [(-> & _ & v & Hv & Hne) | [(-> & _ & _ & v & Hv & Hne) |
        (Hs0 & Hd0 & _ & Hcopy)]].
  - rewrite Hvs in Hv.
    destruct (decide (Exists too_large src)) as [Hex|]; [|congruence].
    rewrite decide_True; [done | by left].
  - rewrite Hvd in Hv.
    destruct (decide (Exists too_large dst)) as [Hex|]; [|congruence].
    rewrite decide_True; [done | by right; left].
  - rewrite Hvs in Hs0. rewrite Hvd in Hd0.
    destruct (decide (Exists too_large src)) as [|Hns]; [done|].
    destruct (decide (Exists too_large dst)) as [|Hnd]; [done|].
    destruct (Z.lt_ge_cases (size_wrap (sum_len dst)) (size_wrap (sum_len src)))
      as [Hlt|Hge].
    + rewrite decide_True by (by right; right).
      rewrite (safe_copy_data_capacity _ _ _ _ _ _ _ _
                 (total_length_array_ptr src) (total_length_array_ptr dst) Hlt)
        in Hcopy.
      congruence.
    + rewrite decide_False by (intros [?|[?|?]]; (done || lia)).
      rewrite (safe_copy_data_enough _ _ _ _ _ _ _ _
                 (total_length_array_ptr src) (total_length_array_ptr dst) Hge)
        in Hcopy.
      destruct (advance_each _ _ _ _ _); congruence.
Qed.

Lemma perform_io_operation_result_witness :
  let src := [{| iov_base := 1000; iov_len := 1 |}] in
  let dst := [{| iov_base := 2000; iov_len := 1 |}] in
  let h : heap := <[1000 := 90]> (<[2000 := 0]> ∅) in
  perform_io_operation 0 (array_ptr src) (Z.of_nat (length src))
    (array_ptr dst) (Z.of_nat (length dst)) h = Ret (0, <[1000 := 65]> h) /\
  0 = if decide (Exists too_large src \/ Exists too_large dst \/
                 size_wrap (sum_len dst) < size_wrap (sum_len src))
      then -1 else 0.
Proof.
  intros src dst h.
  assert (Hrun : perform_io_operation 0 (array_ptr src)
                   (Z.of_nat (length src)) (array_ptr dst)
                   (Z.of_nat (length dst)) h = Ret (0, <[1000 := 65]> h))
    by reflexivity.
  split; [exact Hrun|].
  exact (perform_io_operation_result 0 src dst h 0 _ Hrun).
Defined.

(** ** What [process_iovec_segments] leaves in memory *)

Lemma Exists_last_split {A} (P : A -> Prop) `{!forall x, Decision (P x)}
    (l : list A) :
  Exists P l ->
  exists pre x post, l = pre ++ x :: post /\ P x /\ ~ Exists P post.
Proof.
  induction l as [|y l IH]; intros Hex; [by apply Exists_nil in Hex|].
  destruct (decide (Exists P l)) as [Hl|Hl].
  - destruct (IH Hl) as (pre & x & post & -> & Hx & Hpost).
    by exists (y :: pre), x, post.
  - apply Exists_cons in Hex as [Hy|]; [|done].
    by exists [], y, l.
Qed.

Lemma process_from_last_writer p n : forall i (h : heap) u h' a pre seg post,
  process_from p i n h = Ret (u, h') ->
  take n (drop i (drop (idx p) (arr p))) = pre ++ seg :: post ->
  filled a seg -> ~ Exists (filled a) post ->
  h' !! a = Some (65 + (a - iov_base seg) mod 26).
Proof.
  induction n as [|n IH]; intros i h u h' a pre seg post Hrun Hsplit Hin Hpost.
  - rewrite take_0 in Hsplit. by destruct pre.
  - cbn [process_from] in Hrun.
    unfold bind at 1 in Hrun. unfold load_iovec in Hrun.
    destruct (index p i) as [seg0|] eqn:Hidx; [|done].
    rewrite (index_Some_drop _ _ _ Hidx) in Hsplit. cbn [take] in Hsplit.
    unfold bind at 1 in Hrun.
    destruct (process_segment_spec seg0 h) as (h1 & Hstep & Hh1).
    rewrite Hstep in Hrun.
    destruct pre as [|x pre]; cbn [app] in Hsplit;
      injection Hsplit as Hhead Htail; subst seg0.
    + apply process_from_spec in Hrun as (_ & Hframe & _).
      rewrite Hframe by (by rewrite Htail).
      by rewrite Hh1, decide_True.
    + by eapply IH.
Qed.

(** X8.  Where source segments overlap, the last one wins: after
    [process_iovec_segments] an address covered by a segment with a
    non-null base, and by no such segment later in the list, holds
    ['A' + (j mod 26)] for its offset [j] in that segment. *)
Theorem process_iovec_segments_last_writer p count (h : heap) u h' a
    pre seg post :
  process_iovec_segments p count h = Ret (u, h') ->
  segments p count = pre ++ seg :: post ->
  filled a seg -> ~ Exists (filled a) post ->
  h' !! a = Some (65 + (a - iov_base seg) mod 26).
Proof.
  unfold process_iovec_segments, segments. intros Hrun Hsplit.
  eapply process_from_last_writer; [exact Hrun|].
  by rewrite drop_0.
Qed.

Lemma process_iovec_segments_last_writer_witness :
  let p := array_ptr [{| iov_base := 1000; iov_len := 4 |};
                      {| iov_base := 1002; iov_len := 4 |};
                      {| iov_base := 0; iov_len := 8 |}] in
  let h' : heap :=
    <[1005 := 68]> (<[1004 := 67]> (<[1003 := 66]> (<[1002 := 65]>
      (<[1001 := 66]> (<[1000 := 65]> ∅))))) in
  process_iovec_segments p 3 ∅ = Ret (tt, h') /\
  h' !! 1003 = Some (65 + (1003 - 1002) mod 26).
Proof.
  intros p h'.
  assert (Hrun : process_iovec_segments p 3 ∅ = Ret (tt, h'))
    by (vm_compute; reflexivity).
  split; [exact Hrun|].
  apply (process_iovec_segments_last_writer p 3 ∅ tt h' 1003
           [{| iov_base := 1000; iov_len := 4 |}]
           {| iov_base := 1002; iov_len := 4 |}
           [{| iov_base := 0; iov_len := 8 |}]).
  - exact Hrun.
  - reflexivity.
  - unfold filled, in_segment. simpl. lia.
  - intros Hex. apply Exists_cons in Hex as [[_ Hnull]|Hex];
      [by simpl in Hnull | by apply Exists_nil in Hex].
Defined.

(** X9.  [process_iovec_segments] is idempotent: what it writes depends on
    the segment list only, so a second run over the same list leaves
    memory exactly as the first run left it. *)
Theorem process_iovec_segments_idempotent p count (h : heap) u h1 :
  process_iovec_segments p count h = Ret (u, h1) ->
  process_iovec_segments p count h1 = Ret (tt, h1).
Proof.
  intros Hrun.
  pose proof (process_iovec_segments_spec _ _ _ _ _ Hrun) as (Hlen & _ & _).
  destruct (process_from_returns p (Z.to_nat count) 0 h1) as [h2 Hrun2];
    [lia|].
  fold (process_iovec_segments p count) in Hrun2.
  rewrite Hrun2. do 2 f_equal.
  apply map_eq. intros a.
  destruct (decide (Exists (filled a) (segments p count))) as [Hex|Hno].
  - apply Exists_last_split in Hex as (pre & seg & post & Hsplit & Hin & Hpost);
      [|apply _].
    unfold process_iovec_segments, segments in *.
    rewrite <- (drop_0 (drop (idx p) (arr p))) in Hsplit.
    rewrite (process_from_last_writer _ _ _ _ _ _ _ _ _ _ Hrun Hsplit Hin Hpost).
    by rewrite (process_from_last_writer _ _ _ _ _ _ _ _ _ _ Hrun2 Hsplit
                  Hin Hpost).
  - apply process_iovec_segments_spec in Hrun2 as (_ & Hframe & _).
    by apply Hframe.
Qed.

Lemma process_iovec_segments_idempotent_witness :
  let p := array_ptr [{| iov_base := 1000; iov_len := 3 |}] in
  let h1 : heap := <[1002 := 67]> (<[1001 := 66]> (<[1000 := 65]> ∅)) in
  process_iovec_segments p 1 ∅ = Ret (tt, h1) /\
  process_iovec_segments p 1 h1 = Ret (tt, h1).
Proof.
  intros p h1.
  assert (Hrun : process_iovec_segments p 1 ∅ = Ret (tt, h1)) by reflexivity.
  split; [exact Hrun|].
  exact (process_iovec_segments_idempotent p 1 ∅ tt h1 Hrun).
Defined.

(** ** The fast path composes without any bound *)

(** X10.  On the single-segment fast path two advances in a row leave the
    iterator where one advance by the sum does, for all amounts: offsets
    are added modulo 2^64 and nothing else is looked at. *)
Theorem advance_fast_path_adds fuel (i : iov_iter) (a b : Z) :
  nr_segs i = 1 ->
  exists i1,
    __iov_iter_advance_iov fuel i a = Ret i1 /\
    __iov_iter_advance_iov fuel i1 b = __iov_iter_advance_iov fuel i (a + b).
Proof.
  intros Hone. eexists. split; [by apply advance_single_segment|].
  rewrite !advance_single_segment by done.
  cbn [iov nr_segs iov_offset].
  by rewrite size_wrap_add_l, Z.add_assoc.
Qed.

Lemma advance_fast_path_adds_witness :
  let i := initialize_iov_iter (array_ptr [seg_of_len 100]) 1 in
  exists i1,
    __iov_iter_advance_iov 0 i 60 = Ret i1 /\
    __iov_iter_advance_iov 0 i1 30 = __iov_iter_advance_iov 0 i (60 + 30).
Proof.
  intros i. apply (advance_fast_path_adds 0 i 60 30). reflexivity.
Defined.

(** ** The two buffer accessors *)

(** X11.  With a non-negative index and a buffer of at least
    [MAX_BUFFER_SIZE] bytes, [process_buffer_with_check] never writes
    outside the buffer: for an index of 1024 or more it returns -1 and
    leaves memory alone, otherwise it returns 0 and the only byte changed
    is [buffer[index]], now ['X']. *)
Theorem process_buffer_with_check_in_bounds (buffer len index : Z) (h : heap) :
  0 <= index -> MAX_BUFFER_SIZE <= len ->
  exists r h',
    process_buffer_with_check buffer len index h = Ret (r, h') /\
    (r = if decide (index < MAX_BUFFER_SIZE) then 0 else -1) /\
    (r = -1 -> h' = h) /\
    (r = 0 -> h' !! (buffer + index) = Some 88) /\
    (forall a, h' !! a <> h !! a -> buffer <= a < buffer + len).
Proof.
  intros Hnn Hlen. unfold process_buffer_with_check, bind, store, ret.
  destruct (Z.leb_spec MAX_BUFFER_SIZE index) as [Hbig|Hok].
  - exists (-1), h. rewrite decide_False by lia.
    split; [done|]. split; [done|]. split; [done|]. split; [done|].
    intros a Hdiff. done.
  - exists 0, (<[buffer + index := 88]> h). rewrite decide_True by lia.
    split; [done|]. split; [done|]. split; [done|].
    split; [intros _; by rewrite lookup_insert_eq|].
    intros a Hdiff.
    destruct (decide (a = buffer + index)) as [->|Hne]; [lia|].
    by rewrite lookup_insert_ne in Hdiff.
Qed.

Lemma process_buffer_with_check_in_bounds_witness :
  exists r h',
    process_buffer_with_check 4096 1024 50 ∅ = Ret (r, h') /\
    (r = if decide (50 < MAX_BUFFER_SIZE) then 0 else -1) /\
    (r = -1 -> h' = ∅) /\
    (r = 0 -> h' !! (4096 + 50) = Some 88) /\
    (forall a, h' !! a <> (∅ : heap) !! a -> 4096 <= a < 4096 + 1024).
Proof.
  apply (process_buffer_with_check_in_bounds 4096 1024 50 ∅).
  - lia.
  - unfold MAX_BUFFER_SIZE. lia.
Defined.

(** The check does not look at [len], nor at the sign of [index]: a
    negative index, or one between [len] and 1023, is accepted and the
    store lands outside the buffer. *)
Lemma process_buffer_with_check_ignores_len (buffer len index : Z) (h : heap) :
  index < MAX_BUFFER_SIZE ->
  process_buffer_with_check buffer len index h
    = Ret (0, <[buffer + index := 88]> h).
Proof.
  intros Hlt. unfold process_buffer_with_check, bind, store, ret.
  destruct (Z.leb_spec MAX_BUFFER_SIZE index); [lia | done].
Qed.

(** X12.  [process_buffer_no_check] stores before it checks: after every
    call [buffer[index]] holds ['Y'], and the result only says afterwards
    whether that was inside the buffer: it is 0 exactly when
    [0 <= index < len] (a negative [index] compares as a huge unsigned
    value) and -1 otherwise. *)
Theorem process_buffer_no_check_stores_first (buffer len index : Z)
    (h : heap) :
  - 2 ^ 31 <= index <= INT_MAX ->
  0 <= len <= SIZE_MAX - 2 ^ 31 ->
  process_buffer_no_check buffer len index h =
    Ret (if decide (0 <= index < len) then 0 else -1,
         <[buffer + index := 89]> h).
Proof.
  unfold INT_MAX, SIZE_MAX. intros Hindex Hlen.
  unfold process_buffer_no_check, bind, store, ret, size_wrap.
  destruct (Z.le_gt_cases 0 index) as [Hnn|Hneg].
  - rewrite Z.mod_small by lia.
    destruct (Z.leb_spec len index).
    + rewrite decide_False by lia. reflexivity.
    + rewrite decide_True by lia. reflexivity.
  - replace (index mod 2 ^ 64) with (index + 2 ^ 64).
    2:{ apply Z.mod_unique with (q := -1); lia. }
    destruct (Z.leb_spec len (index + 2 ^ 64)); [|lia].
    rewrite decide_False by lia. reflexivity.
Qed.

Lemma process_buffer_no_check_stores_first_witness :
  process_buffer_no_check 4096 100 (-3) ∅ =
    Ret (if decide (0 <= -3 < 100) then 0 else -1, <[4096 + -3 := 89]> ∅).
Proof.
  apply (process_buffer_no_check_stores_first 4096 100 (-3) ∅).
  - unfold INT_MAX. lia.
  - unfold SIZE_MAX. lia.
Defined.

End CoreTheory.

(** * Properties of [sample.c] *)

Module SampleTheory.
Import Sample.

(** C10.  After one [cleanup_buffer] the buffer is [(NULL, 0, 0)]; a second
    one returns the same buffer and the same allocator state, so it makes
    no call to [free]. *)
Theorem cleanup_buffer_idempotent (buf : buffer) (m : allocator) :
  let '(buf1, m1) := cleanup_buffer buf m in
  buf1 = {| data := 0; size := 0; capacity := 0 |} /\
  cleanup_buffer buf1 m1 = (buf1, m1) /\
  freed (snd (cleanup_buffer buf1 m1)) = freed m1.
Proof.
  unfold cleanup_buffer.
  destruct (Z.eqb_spec (data buf) 0) as [Hnull|Hlive]; cbn [negb].
  - rewrite Hnull. repeat split.
  - repeat split.
Qed.

(** The first [cleanup_buffer] frees a non-null [data] exactly once. *)
Lemma cleanup_buffer_frees_once (buf : buffer) (m : allocator) :
  freed (snd (cleanup_buffer buf m)) =
    if data buf =? 0 then freed m else data buf :: freed m.
Proof.
  unfold cleanup_buffer. by destruct (data buf =? 0).
Qed.

(** ** [jiffies_to_timespec] *)

(** C9.  Whatever the tick count, the division helper is entered with the
    non-zero divisor [NSEC_PER_SEC] and returns 0, so the error branch of
    [jiffies_to_timespec] is not taken: [tv_sec] and [tv_nsec] are the
    quotient and the remainder of the 64-bit product by 10^9, and [tv_nsec]
    lies in [0, 10^9). *)
Theorem jiffies_to_timespec_in_range (jiffies rem : Z) :
  let result := size_wrap (size_wrap jiffies * TICK_NSEC) in
  fst (safe_div_u64_rem result NSEC_PER_SEC rem) = 0 /\
  jiffies_to_timespec jiffies rem =
    {| tv_sec := result / 1000000000; tv_nsec := result mod 1000000000 |} /\
  0 <= tv_nsec (jiffies_to_timespec jiffies rem) < 1000000000.
Proof.
  cbv zeta.
  set (result := size_wrap (size_wrap jiffies * TICK_NSEC)).
  assert (Hres : 0 <= result < 2 ^ 64).
  { unfold result, size_wrap. apply Z.mod_pos_bound. lia. }
  assert (Hrem : 0 <= result mod 1000000000 < 1000000000)
    by (apply Z.mod_pos_bound; lia).
  assert (Hquot : 0 <= result / 1000000000 < 2 ^ 63).
  { split; [apply Z.div_pos; lia|].
    apply Z.div_lt_upper_bound; lia. }
  assert (Hrun : jiffies_to_timespec jiffies rem =
    {| tv_sec := result / 1000000000; tv_nsec := result mod 1000000000 |}).
  { unfold jiffies_to_timespec. fold result.
    unfold safe_div_u64_rem, NSEC_PER_SEC. cbn [Z.eqb negb].
    unfold to_uint32, to_int64.
    rewrite (Z.mod_small (result mod 1000000000) (2 ^ 32)) by lia.
    rewrite (Z.mod_small (result / 1000000000) (2 ^ 64)) by lia.
    rewrite (Z.mod_small (result mod 1000000000) (2 ^ 64)) by lia.
    destruct (Z.ltb_spec (result / 1000000000) (2 ^ 63)); [|lia].
    destruct (Z.ltb_spec (result mod 1000000000) (2 ^ 63)); [|lia].
    reflexivity. }
  split; [reflexivity|]. split; [exact Hrun|].
  rewrite Hrun. exact Hrem.
Qed.

(** * Further properties of [sample.c] *)

(** ** The set of live blocks *)

Lemma live_after_release (p : Z) (L : gset Z) :
  p ∉ L -> ({[p]} ∪ L) ∖ {[p]} = L.
Proof.
  intros Hfresh. apply set_eq. intros x.
  rewrite elem_of_difference, elem_of_union, !elem_of_singleton.
  split; [intros [[?|?] ?]; done|].
  intros Hx. split; [by right|]. by intros ->.
Qed.

Lemma not_live_after_alloc (p q : Z) (L : gset Z) :
  p ∉ L -> p <> q -> p ∉ ({[q]} ∪ L).
Proof.
  intros Hp Hne. rewrite elem_of_union, elem_of_singleton.
  by intros [?|?].
Qed.

(** ** Ticks to seconds *)

Lemma jiffies_to_timespec_eval (jiffies rem : Z) :
  jiffies_to_timespec jiffies rem =
    {| tv_sec := size_wrap (size_wrap jiffies * TICK_NSEC) / 1000000000;
       tv_nsec := size_wrap (size_wrap jiffies * TICK_NSEC) mod 1000000000 |}.
Proof.
  set (result := size_wrap (size_wrap jiffies * TICK_NSEC)).
  assert (Hres : 0 <= result < 2 ^ 64).
  { unfold result, size_wrap. apply Z.mod_pos_bound. lia. }
  assert (Hrem : 0 <= result mod 1000000000 < 1000000000)
    by (apply Z.mod_pos_bound; lia).
  assert (Hquot : 0 <= result / 1000000000 < 2 ^ 63).
  { split; [apply Z.div_pos; lia|]. apply Z.div_lt_upper_bound; lia. }
  unfold jiffies_to_timespec. fold result.
  unfold safe_div_u64_rem, NSEC_PER_SEC. cbn [Z.eqb negb].
  unfold to_uint32, to_int64.
  rewrite (Z.mod_small (result mod 1000000000) (2 ^ 32)) by lia.
  rewrite (Z.mod_small (result / 1000000000) (2 ^ 64)) by lia.
  rewrite (Z.mod_small (result mod 1000000000) (2 ^ 64)) by lia.
  destruct (Z.ltb_spec (result / 1000000000) (2 ^ 63)); [|lia].
  destruct (Z.ltb_spec (result mod 1000000000) (2 ^ 63)); [|lia].
  reflexivity.
Qed.

(** X13.  A tick is a millisecond.  As long as the product of the tick
    count by [TICK_NSEC] fits in 64 bits, [jiffies_to_timespec] is exact:
    [tv_sec] is the count divided by 1000, [tv_nsec] is the rest times
    10^6, and together they are worth [jiffies * 10^6] nanoseconds. *)
Theorem jiffies_to_timespec_milliseconds (jiffies rem : Z) :
  0 <= jiffies -> jiffies * TICK_NSEC <= SIZE_MAX ->
  jiffies_to_timespec jiffies rem =
    {| tv_sec := jiffies / 1000; tv_nsec := (jiffies mod 1000) * 1000000 |} /\
  tv_sec (jiffies_to_timespec jiffies rem) * NSEC_PER_SEC
    + tv_nsec (jiffies_to_timespec jiffies rem) = jiffies * 1000000.
Proof.
  unfold TICK_NSEC, SIZE_MAX, NSEC_PER_SEC. intros Hnn Hfit.
  rewrite jiffies_to_timespec_eval. unfold TICK_NSEC, size_wrap.
  rewrite (Z.mod_small jiffies) by lia.
  rewrite (Z.mod_small (jiffies * 1000000)) by lia.
  change 1000000000 with (1000 * 1000000).
  rewrite Z.div_mul_cancel_r by lia.
  rewrite Z.mul_mod_distr_r by lia.
  split; [reflexivity|]. cbn [tv_sec tv_nsec].
  pose proof (Z.div_mod jiffies 1000 ltac:(lia)). lia.
Qed.

Lemma jiffies_to_timespec_milliseconds_witness :
  jiffies_to_timespec 2500 0 =
    {| tv_sec := 2500 / 1000; tv_nsec := (2500 mod 1000) * 1000000 |} /\
  tv_sec (jiffies_to_timespec 2500 0) * NSEC_PER_SEC
    + tv_nsec (jiffies_to_timespec 2500 0) = 2500 * 1000000.
Proof.
  apply (jiffies_to_timespec_milliseconds 2500 0).
  - lia.
  - unfold TICK_NSEC, SIZE_MAX. lia.
Defined.

(** Beyond that the product wraps and the seconds start again from a
    small value. *)
Example jiffies_to_timespec_wraps :
  tv_sec (jiffies_to_timespec 18446744073710 0) = 0 /\
  18446744073710 / 1000 = 18446744073.
Proof. split; reflexivity. Qed.

(** ** Allocation and release *)

(** X14.  [initialize_buffer] and then [cleanup_buffer] leave the set of
    live blocks as it was: the block that was obtained is released exactly
    once, and after a failed allocation, where [size] and [capacity] are
    left as they were and [data] is null, nothing is released. *)
Theorem initialize_then_cleanup (buf : buffer) (initial_capacity p : Z)
    (m : memory) :
  p ∉ live (mem_alloc m) ->
  let '(r, buf1, m1) := initialize_buffer buf initial_capacity p m in
  let '(buf2, a2) := cleanup_buffer buf1 (mem_alloc m1) in
  r = (if p =? 0 then -1 else 0) /\
  buf1 = (if p =? 0
          then {| data := 0; size := size buf; capacity := capacity buf |}
          else {| data := p; size := 0; capacity := initial_capacity |}) /\
  buf2 = {| data := 0; size := 0; capacity := 0 |} /\
  live a2 = live (mem_alloc m) /\
  freed a2 = (if p =? 0 then freed (mem_alloc m)
              else p :: freed (mem_alloc m)).
Proof.
  intros Hfresh. unfold initialize_buffer, malloc, cleanup_buffer.
  destruct (Z.eqb_spec p 0) as [->|Hp]; cbn [data negb Z.eqb].
  - repeat split.
  - destruct (Z.eqb_spec p 0) as [|_]; [done|]. cbn [negb].
    repeat split. cbn [free mem_alloc live]. by apply live_after_release.
Qed.

Lemma initialize_then_cleanup_witness :
  let m := {| mem_alloc := {| live := ∅; freed := [] |}; mem_blocks := ∅ |} in
  let buf := {| data := 7; size := 8; capacity := 9 |} in
  let '(r, buf1, m1) := initialize_buffer buf 1024 4096 m in
  let '(buf2, a2) := cleanup_buffer buf1 (mem_alloc m1) in
  r = (if 4096 =? 0 then -1 else 0) /\
  buf1 = (if 4096 =? 0
          then {| data := 0; size := size buf; capacity := capacity buf |}
          else {| data := 4096; size := 0; capacity := 1024 |}) /\
  buf2 = {| data := 0; size := 0; capacity := 0 |} /\
  live a2 = live (mem_alloc m) /\
  freed a2 = (if 4096 =? 0 then freed (mem_alloc m)
              else 4096 :: freed (mem_alloc m)).
Proof.
  apply (initialize_then_cleanup {| data := 7; size := 8; capacity := 9 |}
           1024 4096
           {| mem_alloc := {| live := ∅; freed := [] |}; mem_blocks := ∅ |}).
  cbn [mem_alloc live]. apply not_elem_of_empty.
Defined.

(** ** Growing the buffer *)

Lemma grow_capacity_spec need fuel : forall c,
  1 <= c <= SIZE_MAX -> need <= 2 ^ 63 ->
  need <= c * 2 ^ Z.of_nat fuel ->
  exists c',
    grow_capacity (S fuel) c need = Ret c' /\
    need <= c' /\ c <= c' <= SIZE_MAX /\ (c' = c \/ c' < 2 * need).
Proof.
  unfold SIZE_MAX.
  induction fuel as [|fuel IH]; intros c Hc Hneed Hreach.
  - cbn [grow_capacity]. change (2 ^ Z.of_nat 0) with 1 in Hreach.
    destruct (Z.ltb_spec c need); [lia|].
    exists c. repeat split; (lia || by left).
  - cbn [grow_capacity].
    destruct (Z.ltb_spec c need) as [Hlt|Hge].
    + assert (Hw : size_wrap (c * 2) = c * 2).
      { unfold size_wrap. apply Z.mod_small. lia. }
      rewrite Hw.
      destruct (IH (c * 2)) as (c' & Hrun & Hn & Hc' & Hmin); [lia | lia | |].
      { rewrite Nat2Z.inj_succ, Z.pow_succ_r in Hreach by lia. lia. }
      exists c'. cbn [grow_capacity] in Hrun. rewrite Hrun.
      repeat split; lia.
    + exists c. repeat split; (lia || by left).
Qed.

Lemma grow_capacity_enough need fuel c :
  (64 <= fuel)%nat ->
  1 <= c <= SIZE_MAX -> need <= 2 ^ 63 ->
  exists c',
    grow_capacity fuel c need = Ret c' /\
    need <= c' /\ c <= c' <= SIZE_MAX /\ (c' = c \/ c' < 2 * need).
Proof.
  intros Hfuel Hc Hneed.
  destruct fuel as [|fuel]; [lia|].
  apply grow_capacity_spec; [done | done |].
  assert (2 ^ 63 <= 2 ^ Z.of_nat fuel) by (apply Z.pow_le_mono_r; lia).
  nia.
Qed.

(** ** Writing into a block *)

Lemma memcpy_spec p off src len (m : memory) block :
  mem_blocks m !! p = Some block ->
  0 <= off -> 0 <= len ->
  off + len <= Z.of_nat (length block) ->
  len <= Z.of_nat (length src) ->
  memcpy p off src len m =
    Ret {| mem_alloc := mem_alloc m;
           mem_blocks :=
             <[p := take (Z.to_nat off) block ++ take (Z.to_nat len) src
                    ++ drop (Z.to_nat (off + len)) block]> (mem_blocks m) |}.
Proof.
  intros Hp Hoff Hlen Hfit Hsrc. unfold memcpy. rewrite Hp.
  destruct (Z.leb_spec 0 off); [|lia].
  destruct (Z.leb_spec 0 len); [|lia].
  destruct (Z.leb_spec (off + len) (Z.of_nat (length block))); [|lia].
  destruct (Z.leb_spec len (Z.of_nat (length src))); [|lia].
  reflexivity.
Qed.

Lemma overwrite_length {A} (block src : list A) (off len : nat) :
  (off + len <= length block)%nat -> (len <= length src)%nat ->
  length (take off block ++ take len src ++ drop (off + len) block)
    = length block.
Proof.
  intros Hfit Hsrc.
  rewrite !length_app, !length_take, length_drop. lia.
Qed.

Lemma overwrite_take {A} (block src : list A) (off len : nat) :
  (off + len <= length block)%nat -> (len <= length src)%nat ->
  take (off + len) (take off block ++ take len src ++ drop (off + len) block)
    = take off block ++ take len src.
Proof.
  intros Hfit Hsrc.
  rewrite app_assoc. apply take_app_length'.
  rewrite length_app, !length_take. lia.
Qed.

(** The block of the buffer after [append_to_buffer] has copied. *)
Lemma append_copy (buf : buffer) (bytes : list Z) (len : Z) (m : memory)
    block :
  data buf <> 0 ->
  mem_blocks m !! data buf = Some block ->
  Z.of_nat (length block) = capacity buf ->
  0 <= size buf -> 0 <= len <= Z.of_nat (length bytes) ->
  size buf + len <= capacity buf ->
  capacity buf <= SIZE_MAX ->
  exists m',
    memcpy (data buf) (size buf) (Some <$> bytes) len m = Ret m' /\
    mem_alloc m' = mem_alloc m /\
    (forall p, p <> data buf -> mem_blocks m' !! p = mem_blocks m !! p) /\
    let buf' := {| data := data buf; size := size_wrap (size buf + len);
                   capacity := capacity buf |} in
    size buf' = size buf + len /\
    buffer_ok buf' m' /\
    buffer_content buf' m' =
      take (Z.to_nat (size buf)) block
      ++ (Some <$> take (Z.to_nat len) bytes).
Proof.
  intros Hnn Hblock Hcap Hsize Hlen Hfit Hmax.
  eexists. split.
  { apply (memcpy_spec _ _ _ _ _ block); try (done || lia).
    rewrite length_fmap. lia. }
  cbn [mem_alloc mem_blocks]. split; [done|]. split.
  { intros p Hp. by rewrite lookup_insert_ne. }
  assert (Hw : size_wrap (size buf + len) = size buf + len).
  { unfold size_wrap. apply Z.mod_small. unfold SIZE_MAX in Hmax. lia. }
  cbv zeta. cbn [size]. split; [exact Hw|].
  assert (Hnat : (Z.to_nat (size buf + len)
                  = Z.to_nat (size buf) + Z.to_nat len)%nat) by lia.
  split.
  - split; [cbn [size capacity]; lia|].
    unfold buffer_block. cbn [data mem_blocks capacity].
    destruct (Z.eqb_spec (data buf) 0) as [|_]; [done|].
    eexists. split; [apply lookup_insert_eq|].
    rewrite Hnat, overwrite_length by (rewrite ?length_fmap; lia). lia.
  - unfold buffer_content, buffer_block. cbn [data mem_blocks size].
    destruct (Z.eqb_spec (data buf) 0) as [|_]; [done|].
    rewrite lookup_insert_eq, Hw, Hnat.
    rewrite overwrite_take by (rewrite ?length_fmap; lia).
    by rewrite fmap_take.
Qed.

(** ** [append_to_buffer] *)

Lemma buffer_ok_block (buf : buffer) (m : memory) :
  buffer_ok buf m ->
  exists block, buffer_block buf m = Some block /\
    Z.of_nat (length block) = capacity buf /\
    buffer_content buf m = take (Z.to_nat (size buf)) block.
Proof.
  intros (_ & block & Hblock & Hlen). exists block.
  unfold buffer_content. by rewrite Hblock.
Qed.

(** The request fits: no reallocation takes place. *)
Lemma append_fit fuel (buf : buffer) (bytes : list Z) (len q : Z)
    (m : memory) :
  buffer_ok buf m -> data buf <> 0 ->
  0 <= len <= Z.of_nat (length bytes) ->
  size buf + len <= capacity buf -> capacity buf <= SIZE_MAX ->
  exists buf' m',
    append_to_buffer fuel buf bytes len q m = Ret (0, buf', m') /\
    data buf' = data buf /\ capacity buf' = capacity buf /\
    size buf' = size buf + len /\
    mem_alloc m' = mem_alloc m /\
    (forall p, p <> data buf -> mem_blocks m' !! p = mem_blocks m !! p) /\
    buffer_ok buf' m' /\
    buffer_content buf' m' =
      buffer_content buf m ++ (Some <$> take (Z.to_nat len) bytes).
Proof.
  intros Hok Hnn Hlen Hfit Hmax.
  destruct (buffer_ok_block _ _ Hok) as (block & Hblock & Hcap & Hcontent).
  destruct Hok as ((Hsize & _) & _).
  unfold buffer_block in Hblock.
  destruct (Z.eqb_spec (data buf) 0) as [|_]; [done|].
  destruct (append_copy buf bytes len m block)
    as (m' & Hcopy & Halloc & Hother & Hsz & Hok' & Hcont');
    try (done || lia).
  unfold append_to_buffer. cbv zeta.
  assert (Hw : size_wrap (size buf + len) = size buf + len).
  { unfold size_wrap. apply Z.mod_small. unfold SIZE_MAX in Hmax. lia. }
  rewrite Hw in *.
  destruct (Z.ltb_spec (capacity buf) (size buf + len)); [lia|].
  rewrite Hcopy. eexists _, m'. split; [reflexivity|].
  cbn [data size capacity]. rewrite Hcontent.
  split; [done|]. split; [done|]. split; [done|]. split; [done|].
  split; [done|]. split; [exact Hok' | exact Hcont'].
Qed.

(** The request does not fit: the block is reallocated to [q]. *)
Lemma append_grow fuel (buf : buffer) (bytes : list Z) (len q : Z)
    (m : memory) :
  buffer_ok buf m ->
  0 <= len <= Z.of_nat (length bytes) ->
  capacity buf < size buf + len -> size buf + len <= 2 ^ 63 ->
  q <> 0 -> (64 <= fuel)%nat ->
  exists buf' m',
    append_to_buffer fuel buf bytes len q m = Ret (0, buf', m') /\
    data buf' = q /\
    size buf' = size buf + len /\
    size buf + len <= capacity buf' <= SIZE_MAX /\
    (capacity buf' = (if capacity buf =? 0 then 1024 else capacity buf * 2)
     \/ capacity buf' < 2 * (size buf + len)) /\
    buffer_ok buf' m' /\
    buffer_content buf' m' =
      buffer_content buf m ++ (Some <$> take (Z.to_nat len) bytes).
Proof.
  intros Hok Hlen Hgrow Hneed Hq Hfuel.
  destruct (buffer_ok_block _ _ Hok) as (block & Hblock & Hcap & Hcontent).
  destruct Hok as ((Hsize & Hsc) & _).
  assert (Hw : size_wrap (size buf + len) = size buf + len).
  { unfold size_wrap. apply Z.mod_small. lia. }
  assert (Hw2 : size_wrap (capacity buf * 2) = capacity buf * 2).
  { unfold size_wrap. apply Z.mod_small. lia. }
  set (c0 := if capacity buf =? 0 then 1024 else capacity buf * 2).
  assert (Hc0 : 1 <= c0 <= SIZE_MAX).
  { unfold c0, SIZE_MAX. destruct (Z.eqb_spec (capacity buf) 0); lia. }
  destruct (grow_capacity_enough (size buf + len) fuel c0 Hfuel Hc0 Hneed)
    as (c' & Hrun & Hn & Hc' & Hmin).
  set (block1 := take (Z.to_nat c') block
                 ++ replicate (Z.to_nat c' - length block) None).
  set (m1 := {| mem_alloc :=
                  {| live := {[q]} ∪ (live (mem_alloc m) ∖ {[data buf]});
                     freed := freed (mem_alloc m) |};
                mem_blocks :=
                  <[q := block1]> (base.delete (data buf) (mem_blocks m)) |}).
  assert (Hresize : resize_buffer buf c' q m =
            Ret (0, {| data := q; size := size buf; capacity := c' |}, m1)).
  { unfold resize_buffer, realloc.
    destruct (Z.eqb_spec q 0) as [|_]; [done|].
    unfold buffer_block in Hblock. by rewrite Hblock. }
  assert (Hlen1 : Z.of_nat (length block1) = c').
  { unfold block1. rewrite length_app, length_take, length_replicate. lia. }
  destruct (append_copy {| data := q; size := size buf; capacity := c' |}
              bytes len m1 block1)
    as (m' & Hcopy & Halloc & Hother & Hsz & Hok' & Hcont');
    cbn [data size capacity]; try (done || lia).
  { unfold m1. cbn [mem_blocks]. apply lookup_insert_eq. }
  cbn [data size capacity] in *.
  unfold append_to_buffer. cbv zeta. rewrite Hw, Hw2.
  destruct (Z.ltb_spec (capacity buf) (size buf + len)); [|lia].
  fold c0. rewrite Hrun, Hresize. cbn [Z.eqb negb data size capacity].
  rewrite Hcopy.
  eexists _, m'. split; [reflexivity|].
  cbn [data size capacity]. rewrite Hw in *.
  split; [done|]. split; [done|]. split; [lia|].
  split; [destruct Hmin; [by left | right; lia]|].
  split; [exact Hok'|].
  rewrite Hcont', Hcontent. f_equal.
  unfold block1. rewrite (take_ge block (Z.to_nat c')) by lia.
  apply take_app_le. lia.
Qed.

Lemma append_ok fuel (buf : buffer) (bytes : list Z) (len q : Z)
    (m : memory) :
  buffer_ok buf m -> capacity buf <= SIZE_MAX ->
  0 <= len <= Z.of_nat (length bytes) ->
  size buf + len <= 2 ^ 63 ->
  data buf <> 0 \/ 0 < len ->
  q <> 0 -> (64 <= fuel)%nat ->
  exists buf' m',
    append_to_buffer fuel buf bytes len q m = Ret (0, buf', m') /\
    buffer_ok buf' m' /\
    data buf' <> 0 /\
    size buf' = size buf + len /\
    capacity buf <= capacity buf' <= SIZE_MAX /\
    buffer_content buf' m' =
      buffer_content buf m ++ (Some <$> take (Z.to_nat len) bytes).
Proof.
  intros Hok Hmax Hlen Hneed Hnn Hq Hfuel.
  destruct (Z.le_gt_cases (size buf + len) (capacity buf)) as [Hfit|Hgrow].
  - assert (Hdata : data buf <> 0).
    { destruct Hnn as [|Hpos]; [done|].
      intros Hnull. destruct Hok as ((Hs & _) & block & Hblock & Hcap).
      unfold buffer_block in Hblock. rewrite Hnull in Hblock.
      cbn in Hblock. inversion Hblock; subst.
      cbn in Hcap. lia. }
    destruct (append_fit fuel buf bytes len q m)
      as (buf' & m' & Hrun & Hd & Hc & Hs & _ & _ & Hok' & Hcont);
      try done.
    exists buf', m'. rewrite Hd, Hc.
    split; [done|]. split; [done|]. split; [done|]. split; [done|].
    split; [lia | done].
  - destruct (append_grow fuel buf bytes len q m)
      as (buf' & m' & Hrun & Hd & Hs & Hc & _ & Hok' & Hcont);
      try (done || lia).
    exists buf', m'. rewrite Hd.
    split; [done|]. split; [done|]. split; [done|]. split; [done|].
    split; [lia | done].
Qed.

(** X15.  [append_to_buffer] appends.  On a well-formed buffer, with [len]
    source bytes available, a total of at most 2^63 bytes and a [realloc]
    that succeeds if called, the call returns 0 and leaves a well-formed
    buffer whose size has grown by [len] and whose contents are the old
    contents followed by the [len] source bytes. *)
Theorem append_to_buffer_appends fuel (buf : buffer) (bytes : list Z)
    (len q : Z) (m : memory) :
  buffer_ok buf m -> capacity buf <= SIZE_MAX ->
  0 <= len <= Z.of_nat (length bytes) ->
  size buf + len <= 2 ^ 63 ->
  data buf <> 0 \/ 0 < len ->
  q <> 0 -> (64 <= fuel)%nat ->
  exists buf' m',
    append_to_buffer fuel buf bytes len q m = Ret (0, buf', m') /\
    buffer_ok buf' m' /\
    size buf' = size buf + len /\
    capacity buf <= capacity buf' /\
    buffer_content buf' m' =
      buffer_content buf m ++ (Some <$> take (Z.to_nat len) bytes).
Proof.
  intros Hok Hmax Hlen Hneed Hnn Hq Hfuel.
  destruct (append_ok fuel buf bytes len q m)
    as (buf' & m' & Hrun & Hok' & _ & Hs & Hc & Hcont); try done.
  exists buf', m'.
  split; [done|]. split; [done|]. split; [done|]. split; [lia | done].
Qed.

Lemma empty_buffer_ok (m : memory) :
  buffer_ok {| data := 0; size := 0; capacity := 0 |} m.
Proof.
  split; [cbn; lia|]. exists []. split; reflexivity.
Qed.

Lemma append_to_buffer_appends_witness :
  let m := {| mem_alloc := {| live := ∅; freed := [] |}; mem_blocks := ∅ |} in
  let buf := {| data := 0; size := 0; capacity := 0 |} in
  exists buf' m',
    append_to_buffer 64 buf [49; 48; 48; 48] 4 4096 m = Ret (0, buf', m') /\
    buffer_ok buf' m' /\
    size buf' = size buf + 4 /\
    capacity buf <= capacity buf' /\
    buffer_content buf' m' =
      buffer_content buf m ++ (Some <$> take (Z.to_nat 4) [49; 48; 48; 48]).
Proof.
  intros m buf.
  apply (append_to_buffer_appends 64 buf [49; 48; 48; 48] 4 4096 m).
  - apply empty_buffer_ok.
  - unfold SIZE_MAX. cbn. lia.
  - cbn. lia.
  - cbn. lia.
  - right. lia.
  - lia.
  - lia.
Defined.

(** X16.  A request that fits in the capacity does not reallocate: the
    result does not depend on what [realloc] would return, the buffer keeps
    its block address and its capacity, the allocator state is untouched
    and so is every other block. *)
Theorem append_within_capacity_keeps_block fuel (buf : buffer)
    (bytes : list Z) (len q : Z) (m : memory) :
  buffer_ok buf m -> data buf <> 0 ->
  0 <= len <= Z.of_nat (length bytes) ->
  size buf + len <= capacity buf -> capacity buf <= SIZE_MAX ->
  exists buf' m',
    append_to_buffer fuel buf bytes len q m = Ret (0, buf', m') /\
    buf' = {| data := data buf; size := size buf + len;
              capacity := capacity buf |} /\
    mem_alloc m' = mem_alloc m /\
    (forall p, p <> data buf -> mem_blocks m' !! p = mem_blocks m !! p).
Proof.
  intros Hok Hnn Hlen Hfit Hmax.
  destruct (append_fit fuel buf bytes len q m)
    as (buf' & m' & Hrun & Hd & Hc & Hs & Halloc & Hother & _ & _);
    try done.
  exists buf', m'. split; [done|]. split; [|by split].
  destruct buf'. cbn in Hd, Hc, Hs. by subst.
Qed.

Lemma append_within_capacity_keeps_block_witness :
  let m := {| mem_alloc := {| live := {[4096]}; freed := [] |};
              mem_blocks := {[ 4096 := replicate 8 None ]} |} in
  let buf := {| data := 4096; size := 0; capacity := 8 |} in
  exists buf' m',
    append_to_buffer 0 buf [49; 50] 2 0 m = Ret (0, buf', m') /\
    buf' = {| data := data buf; size := size buf + 2;
              capacity := capacity buf |} /\
    mem_alloc m' = mem_alloc m /\
    (forall p, p <> data buf -> mem_blocks m' !! p = mem_blocks m !! p).
Proof.
  intros m buf.
  apply (append_within_capacity_keeps_block 0 buf [49; 50] 2 0 m).
  - split; [cbn; lia|]. exists (replicate 8 None). split; reflexivity.
  - cbn. lia.
  - cbn. lia.
  - cbn. lia.
  - unfold SIZE_MAX. cbn. lia.
Defined.

(** X17.  When the buffer has to grow and [realloc] fails,
    [append_to_buffer] returns -1 and neither the buffer nor memory has
    changed. *)
Theorem append_realloc_failure fuel (buf : buffer) (bytes : list Z)
    (len : Z) (m : memory) :
  0 <= capacity buf < size buf + len -> size buf + len <= 2 ^ 63 ->
  (64 <= fuel)%nat ->
  append_to_buffer fuel buf bytes len 0 m = Ret (-1, buf, m).
Proof.
  intros Hgrow Hneed Hfuel.
  assert (Hw : size_wrap (size buf + len) = size buf + len).
  { unfold size_wrap. apply Z.mod_small. lia. }
  assert (Hw2 : size_wrap (capacity buf * 2) = capacity buf * 2).
  { unfold size_wrap. apply Z.mod_small. lia. }
  set (c0 := if capacity buf =? 0 then 1024 else capacity buf * 2).
  assert (Hc0 : 1 <= c0 <= SIZE_MAX).
  { unfold c0, SIZE_MAX. destruct (Z.eqb_spec (capacity buf) 0); lia. }
  destruct (grow_capacity_enough (size buf + len) fuel c0 Hfuel Hc0 Hneed)
    as (c' & Hrun & _).
  unfold append_to_buffer. cbv zeta. rewrite Hw, Hw2.
  destruct (Z.ltb_spec (capacity buf) (size buf + len)); [|lia].
  fold c0. rewrite Hrun. reflexivity.
Qed.

Lemma append_realloc_failure_witness :
  let m := {| mem_alloc := {| live := ∅; freed := [] |}; mem_blocks := ∅ |} in
  let buf := {| data := 0; size := 0; capacity := 0 |} in
  append_to_buffer 64 buf [49] 1 0 m = Ret (-1, buf, m).
Proof.
  intros m buf.
  apply (append_realloc_failure 64 buf [49] 1 m); cbn; lia.
Defined.

(** X18.  Growth is by doubling and stops as soon as the request fits: the
    new capacity is at least the new size, and it is either the first
    candidate (1024 for an empty buffer, twice the old capacity otherwise)
    or less than twice the new size. *)
Theorem append_grows_by_doubling fuel (buf : buffer) (bytes : list Z)
    (len q : Z) (m : memory) :
  buffer_ok buf m ->
  0 <= len <= Z.of_nat (length bytes) ->
  capacity buf < size buf + len -> size buf + len <= 2 ^ 63 ->
  q <> 0 -> (64 <= fuel)%nat ->
  exists buf' m',
    append_to_buffer fuel buf bytes len q m = Ret (0, buf', m') /\
    data buf' = q /\
    size buf + len <= capacity buf' /\
    (capacity buf' = (if capacity buf =? 0 then 1024 else capacity buf * 2)
     \/ capacity buf' < 2 * (size buf + len)).
Proof.
  intros Hok Hlen Hgrow Hneed Hq Hfuel.
  destruct (append_grow fuel buf bytes len q m)
    as (buf' & m' & Hrun & Hd & _ & Hc & Hmin & _); try done.
  exists buf', m'. split; [done|]. split; [done|]. split; [lia | done].
Qed.

Lemma append_grows_by_doubling_witness :
  let m := {| mem_alloc := {| live := ∅; freed := [] |}; mem_blocks := ∅ |} in
  let buf := {| data := 0; size := 0; capacity := 0 |} in
  exists buf' m',
    append_to_buffer 64 buf [49; 48; 48; 48] 4 4096 m = Ret (0, buf', m') /\
    data buf' = 4096 /\
    size buf + 4 <= capacity buf' /\
    (capacity buf' = (if capacity buf =? 0 then 1024 else capacity buf * 2)
     \/ capacity buf' < 2 * (size buf + 4)).
Proof.
  intros m buf.
  apply (append_grows_by_doubling 64 buf [49; 48; 48; 48] 4 4096 m).
  - apply empty_buffer_ok.
  - cbn. lia.
  - cbn. lia.
  - cbn. lia.
  - lia.
  - lia.
Defined.

(** X19.  Appends accumulate: two calls in a row leave the contents of the
    buffer followed by the bytes of the first call and then those of the
    second. *)
Theorem append_twice_concatenates fuel (buf : buffer) (bytes1 bytes2 : list Z)
    (q1 q2 : Z) (m : memory) :
  buffer_ok buf m -> capacity buf <= SIZE_MAX ->
  0 < Z.of_nat (length bytes1) ->
  size buf + Z.of_nat (length bytes1) + Z.of_nat (length bytes2) <= 2 ^ 63 ->
  q1 <> 0 -> q2 <> 0 -> (64 <= fuel)%nat ->
  exists buf1 m1 buf2 m2,
    append_to_buffer fuel buf bytes1 (Z.of_nat (length bytes1)) q1 m
      = Ret (0, buf1, m1) /\
    append_to_buffer fuel buf1 bytes2 (Z.of_nat (length bytes2)) q2 m1
      = Ret (0, buf2, m2) /\
    buffer_ok buf2 m2 /\
    buffer_content buf2 m2 =
      buffer_content buf m ++ (Some <$> bytes1 ++ bytes2).
Proof.
  intros Hok Hmax Hpos Hneed Hq1 Hq2 Hfuel.
  destruct (append_ok fuel buf bytes1 (Z.of_nat (length bytes1)) q1 m
              Hok Hmax ltac:(lia) ltac:(lia) (or_intror Hpos) Hq1 Hfuel)
    as (buf1 & m1 & Hrun1 & Hok1 & Hd1 & Hs1 & Hc1 & Hcont1).
  destruct (append_ok fuel buf1 bytes2 (Z.of_nat (length bytes2)) q2 m1
              Hok1 ltac:(lia) ltac:(lia) ltac:(lia) (or_introl Hd1) Hq2 Hfuel)
    as (buf2 & m2 & Hrun2 & Hok2 & _ & _ & _ & Hcont2).
  exists buf1, m1, buf2, m2.
  split; [done|]. split; [done|]. split; [done|].
  rewrite Hcont2, Hcont1, !Nat2Z.id, !firstn_all, fmap_app.
  by rewrite app_assoc.
Qed.

Lemma append_twice_concatenates_witness :
  let m := {| mem_alloc := {| live := ∅; freed := [] |}; mem_blocks := ∅ |} in
  let buf := {| data := 0; size := 0; capacity := 0 |} in
  exists buf1 m1 buf2 m2,
    append_to_buffer 64 buf [49; 48] (Z.of_nat (length [49; 48])) 4096 m
      = Ret (0, buf1, m1) /\
    append_to_buffer 64 buf1 [48; 48] (Z.of_nat (length [48; 48])) 8192 m1
      = Ret (0, buf2, m2) /\
    buffer_ok buf2 m2 /\
    buffer_content buf2 m2 =
      buffer_content buf m ++ (Some <$> [49; 48] ++ [48; 48]).
Proof.
  intros m buf.
  apply (append_twice_concatenates 64 buf [49; 48] [48; 48] 4096 8192 m).
  - apply empty_buffer_ok.
  - unfold SIZE_MAX. cbn. lia.
  - cbn. lia.
  - cbn. lia.
  - lia.
  - lia.
  - lia.
Defined.

(** ** When doubling wraps *)

Lemma grow_capacity_pow2_spins need fuel : forall j,
  0 <= j <= 64 -> 2 ^ 63 < need ->
  grow_capacity fuel (size_wrap (2 ^ j)) need = OutOfFuel.
Proof.
  induction fuel as [|fuel IH]; intros j Hj Hneed; [done|].
  cbn [grow_capacity].
  destruct (decide (j = 64)) as [->|Hlt].
  - change (size_wrap (2 ^ 64)) with 0.
    destruct (Z.ltb_spec 0 need); [|lia].
    change (size_wrap (0 * 2)) with (size_wrap (2 ^ 64)).
    apply IH; lia.
  - assert (Hpow : 2 ^ j <= 2 ^ 63) by (apply Z.pow_le_mono_r; lia).
    assert (Hpos : 0 < 2 ^ j) by (apply Z.pow_pos_nonneg; lia).
    assert (Hw : size_wrap (2 ^ j) = 2 ^ j).
    { unfold size_wrap. apply Z.mod_small. lia. }
    rewrite Hw.
    destruct (Z.ltb_spec (2 ^ j) need); [|lia].
    replace (2 ^ j * 2) with (2 ^ (j + 1))
      by (rewrite Z.pow_add_r by lia; lia).
    apply IH; lia.
Qed.

(** X20.  The growth loop has no guard against overflow.  For a buffer
    whose capacity is 0 or a power of two, a request that brings the size
    above 2^63 never gets an answer: the candidate capacity doubles up to
    2^63, wraps to 0, and stays there. *)
Theorem append_growth_spins fuel (buf : buffer) (bytes : list Z)
    (len q : Z) (m : memory) (k : Z) :
  capacity buf = 0 \/ (0 <= k <= 63 /\ capacity buf = 2 ^ k) ->
  2 ^ 63 < size_wrap (size buf + len) ->
  append_to_buffer fuel buf bytes len q m = OutOfFuel.
Proof.
  intros Hcap Hneed.
  unfold append_to_buffer. cbv zeta.
  assert (Hle : capacity buf <= 2 ^ 63).
  { destruct Hcap as [->|[Hk ->]]; [lia|]. apply Z.pow_le_mono_r; lia. }
  destruct (Z.ltb_spec (capacity buf) (size_wrap (size buf + len))); [|lia].
  destruct Hcap as [H0|[Hk Hpow]].
  - rewrite H0. cbn [Z.eqb].
    change 1024 with (size_wrap (2 ^ 10)).
    rewrite grow_capacity_pow2_spins by lia. reflexivity.
  - assert (0 < 2 ^ k) by (apply Z.pow_pos_nonneg; lia).
    destruct (Z.eqb_spec (capacity buf) 0); [lia|].
    rewrite Hpow.
    replace (2 ^ k * 2) with (2 ^ (k + 1))
      by (rewrite Z.pow_add_r by lia; lia).
    rewrite grow_capacity_pow2_spins by lia. reflexivity.
Qed.

Lemma append_growth_spins_witness :
  let m := {| mem_alloc := {| live := ∅; freed := [] |}; mem_blocks := ∅ |} in
  let buf := {| data := 0; size := 0; capacity := 0 |} in
  append_to_buffer 100 buf [] (2 ^ 63 + 1) 4096 m = OutOfFuel.
Proof.
  intros m buf.
  apply (append_growth_spins 100 buf [] (2 ^ 63 + 1) 4096 m 0).
  - by left.
  - vm_compute. reflexivity.
Defined.

(** ** [strtoul] on well-shaped input *)

Lemma span_space_spec (ws : list Z) c (rest : list (option Z)) :
  Forall (fun w => isspace w = true) ws -> isspace c = false ->
  span_space ((Some <$> ws) ++ Some c :: rest) = Ret (length ws).
Proof.
  intros Hws Hc. induction Hws as [|w ws Hw _ IH]; cbn.
  - by rewrite Hc.
  - cbn in IH. by rewrite Hw, IH.
Qed.

Lemma span_digits_spec (ds : list Z) c (rest : list (option Z)) : forall acc,
  all_digits ds -> isdigit c = false ->
  span_digits ((Some <$> ds) ++ Some c :: rest) acc
    = Ret (length ds, foldl (fun a d => a * 10 + (d - 48)) acc ds).
Proof.
  intros acc Hds Hc. revert acc.
  induction Hds as [|d ds Hd _ IH]; intros acc; cbn.
  - by rewrite Hc.
  - assert (Hdig : isdigit d = true).
    { unfold isdigit. destruct (Z.leb_spec 48 d), (Z.leb_spec d 57); (done || lia). }
    cbn in IH. by rewrite Hdig, IH.
Qed.

Lemma digit_not_space d : 48 <= d <= 57 -> isspace d = false.
Proof.
  intros Hd. unfold isspace.
  destruct (Z.eqb_spec d 32); [lia|].
  destruct (Z.leb_spec 9 d), (Z.leb_spec d 13); (done || lia).
Qed.

Lemma decimal_value_nonneg (ds : list Z) : forall acc,
  all_digits ds -> 0 <= acc ->
  0 <= foldl (fun a d => a * 10 + (d - 48)) acc ds.
Proof.
  intros acc Hds. revert acc.
  induction Hds as [|d ds Hd _ IH]; intros acc Hacc; cbn; [done|].
  apply IH. lia.
Qed.

Lemma sign_match_other {A} (s : list (option Z)) (d : Z)
    (t : list (option Z)) (a b c : A) :
  s = Some d :: t -> d <> 43 -> d <> 45 ->
  match s with
  | Some 43 :: _ => a
  | Some 45 :: _ => b
  | _ => c
  end = c.
Proof.
  intros -> H43 H45.
  destruct d as [|p|p]; [done | | done].
  do 6 (destruct p as [p|p|]; try done).
Qed.

(** A run of digits, after white space and an optional sign, up to a byte
    that is not a digit. *)
Lemma strtoul_number (ws sign ds : list Z) c (rest : list (option Z)) :
  Forall (fun w => isspace w = true) ws ->
  sign = [] \/ sign = [43] \/ sign = [45] ->
  all_digits ds -> ds <> [] -> isdigit c = false ->
  strtoul ((Some <$> ws ++ sign ++ ds) ++ Some c :: rest) =
    Ret (if SIZE_MAX <? decimal_value ds then SIZE_MAX
         else if decide (sign = [45]) then size_wrap (- decimal_value ds)
              else decimal_value ds,
         (length ws + length sign + length ds)%nat).
Proof.
  intros Hws Hsign Hds Hne Hc. unfold strtoul.
  rewrite !fmap_app, <- !app_assoc.
  destruct ds as [|d ds']; [done|].
  pose proof (Forall_inv Hds) as Hd. cbv beta in Hd.
  pose proof (span_digits_spec (d :: ds') c rest 0 Hds Hc) as Hdig.
  fold (decimal_value (d :: ds')) in Hdig.
  set (v := decimal_value (d :: ds')) in *.
  set (n := length (d :: ds')) in *.
  assert (Hn : n <> O) by done.
  assert (Hspan : span_space
            ((Some <$> ws) ++ (Some <$> sign) ++ (Some <$> d :: ds')
             ++ Some c :: rest) = Ret (length ws)).
  { destruct Hsign as [-> | [-> | ->]]; cbn [fmap list_fmap app];
      apply span_space_spec; (done || by apply digit_not_space). }
  rewrite Hspan.
  rewrite drop_app_length'; [|by rewrite length_fmap].
  assert (Htail : (Some <$> d :: ds') ++ Some c :: rest
                  = Some d :: ((Some <$> ds') ++ Some c :: rest))
    by reflexivity.
  set (tail := (Some <$> d :: ds') ++ Some c :: rest) in *.
  destruct Hsign as [-> | [-> | ->]].
  - change ((Some <$> []) ++ tail) with tail.
    rewrite (sign_match_other tail d _ _ _ _ Htail) by lia.
    change (drop 0 tail) with tail. rewrite Hdig.
    destruct n; [done|]. rewrite decide_False by done.
    repeat f_equal; try (cbn [length]; lia).
  - change ((Some <$> [43]) ++ tail) with (Some 43 :: tail).
    cbv beta iota zeta. change (drop 1 (Some 43 :: tail)) with tail.
    rewrite Hdig.
    destruct n; [done|]. rewrite decide_False by done.
    repeat f_equal; try (cbn [length]; lia).
  - change ((Some <$> [45]) ++ tail) with (Some 45 :: tail).
    cbv beta iota zeta. change (drop 1 (Some 45 :: tail)) with tail.
    rewrite Hdig.
    destruct n; [done|]. rewrite decide_True by done.
    repeat f_equal; try (cbn [length]; lia).
Qed.

(** Nothing to convert: the value is 0 and [endptr] is [nptr]. *)
Lemma strtoul_no_digits (ws sign : list Z) c (rest : list (option Z)) :
  Forall (fun w => isspace w = true) ws ->
  sign = [] \/ sign = [43] \/ sign = [45] ->
  isdigit c = false ->
  (sign = [] -> isspace c = false /\ c <> 43 /\ c <> 45) ->
  strtoul ((Some <$> ws ++ sign) ++ Some c :: rest) = Ret (0, O).
Proof.
  intros Hws Hsign Hc Hstop. unfold strtoul.
  rewrite !fmap_app, <- !app_assoc.
  assert (Hspan : span_space
            ((Some <$> ws) ++ (Some <$> sign) ++ Some c :: rest)
            = Ret (length ws)).
  { destruct Hsign as [-> | [-> | ->]]; cbn [fmap list_fmap app];
      apply span_space_spec; try done. by apply Hstop. }
  rewrite Hspan.
  rewrite drop_app_length'; [|by rewrite length_fmap].
  assert (Hdig : forall acc, span_digits (Some c :: rest) acc = Ret (O, acc)).
  { intros acc. cbn. by rewrite Hc. }
  destruct Hsign as [-> | [-> | ->]].
  - destruct (Hstop eq_refl) as (_ & H43 & H45).
    change ((Some <$> []) ++ Some c :: rest) with (Some c :: rest).
    set (s := Some c :: rest) in *.
    rewrite (sign_match_other s c rest _ _ _ eq_refl) by done.
    change (drop 0 s) with s.
    by rewrite Hdig.
  - change ((Some <$> [43]) ++ Some c :: rest)
      with (Some 43 :: Some c :: rest).
    cbv beta iota zeta.
    change (drop 1 (Some 43 :: Some c :: rest)) with (Some c :: rest).
    by rewrite Hdig.
  - change ((Some <$> [45]) ++ Some c :: rest)
      with (Some 45 :: Some c :: rest).
    cbv beta iota zeta.
    change (drop 1 (Some 45 :: Some c :: rest)) with (Some c :: rest).
    by rewrite Hdig.
Qed.

(** ** [validate_and_convert] *)

Section Convert.

(** The setting of a conversion: a buffer of [size] bytes whose block
    starts with the known bytes [content], an output structure, and a
    [malloc] that returns the fresh block [p]. *)
Variables (buf : buffer) (out : timespec) (p rem : Z) (m : memory).
Variables (src : list (option Z)) (content : list Z).

Hypothesis Hsize : size buf = Z.of_nat (length content).
Hypothesis Hnonempty : content <> [].
Hypothesis Hmax : size buf < SIZE_MAX.
Hypothesis Hp : p <> 0.
Hypothesis Hfresh : mem_blocks m !! p = None.
Hypothesis Hlive : p ∉ live (mem_alloc m).
Hypothesis Hsrc : mem_blocks m !! data buf = Some src.
Hypothesis Hcontent : take (length content) src = Some <$> content.

Lemma convert_run :
  validate_and_convert (Some buf) (Some out) p rem m =
    match strtoul ((Some <$> content) ++ [Some 0]) with
    | Ret (jiffies, endptr) =>
        match ((Some <$> content) ++ [Some 0]) !! endptr with
        | Some (Some c) =>
            if negb (c =? 0) then Ret (-1, Some out, (after_convert p m))
            else Ret (0, Some (jiffies_to_timespec jiffies rem),
                      (after_convert p m))
        | _ => OutOfBounds
        end
    | OutOfBounds => OutOfBounds
    | OutOfFuel => OutOfFuel
    end.
Proof.
  set (n := length content) in *.
  assert (Hn : (0 < n)%nat).
  { unfold n. destruct content; [done | cbn; lia]. }
  assert (Hlen_src : (n <= length src)%nat).
  { apply (f_equal length) in Hcontent.
    rewrite length_take, length_fmap in Hcontent. fold n in Hcontent. lia. }
  assert (Hw : size_wrap (size buf + 1) = Z.of_nat (S n)).
  { unfold size_wrap. rewrite Z.mod_small by (unfold SIZE_MAX in Hmax; lia).
    lia. }
  assert (Hne : p <> data buf) by congruence.
  unfold validate_and_convert.
  destruct (Z.ltb_spec 0 (size buf)); [|lia].
  destruct (Z.eqb_spec p 0) as [|_]; [done|].
  unfold malloc. destruct (Z.eqb_spec p 0) as [|_]; [done|].
  cbn [mem_blocks]. rewrite lookup_insert_ne by done. rewrite Hsrc.
  rewrite Hw, Nat2Z.id.
  erewrite memcpy_spec; cycle 1.
  { cbn [mem_blocks]. apply lookup_insert_eq. }
  { lia. }
  { lia. }
  { rewrite length_replicate. lia. }
  { lia. }
  unfold store_byte. cbn [mem_blocks mem_alloc].
  rewrite lookup_insert_eq.
  rewrite Hsize, Z.add_0_l, Nat2Z.id. fold n.
  change (Z.to_nat 0) with O. rewrite take_0, app_nil_l.
  rewrite Hcontent, drop_replicate.
  replace (S n - n)%nat with 1%nat by lia.
  change (replicate 1 None) with [@None Z].
  rewrite length_app, length_fmap. fold n. cbn [length].
  destruct (Z.leb_spec 0 (Z.of_nat n)); [|lia].
  destruct (Z.ltb_spec (Z.of_nat n) (Z.of_nat (n + 1))); [|lia].
  cbn [andb mem_blocks mem_alloc]. rewrite lookup_insert_eq.
  assert (Htmp : <[n := Some 0]> ((Some <$> content) ++ [None])
                 = (Some <$> content) ++ [Some 0]).
  { replace n with (length (Some <$> content) + 0)%nat at 1
      by (rewrite length_fmap; unfold n; lia).
    by rewrite insert_app_r. }
  rewrite Htmp.
  assert (Hfinal : forall x y z,
    mfree p {| mem_alloc := {| live := {[p]} ∪ live (mem_alloc m);
                               freed := freed (mem_alloc m) |};
               mem_blocks := <[p := x]> (<[p := y]> (<[p := z]>
                               (mem_blocks m))) |} = (after_convert p m)).
  { intros x y z. unfold mfree, after_convert, free.
    cbn [mem_alloc mem_blocks live freed]. f_equal.
    - f_equal. by apply live_after_release.
    - rewrite !delete_insert_eq. by apply delete_id. }
  rewrite Hfinal.
  destruct (strtoul _) as [[jiffies endptr]| |]; [|done|done].
  destruct (_ !! endptr) as [[c|]|]; try done.
Qed.

End Convert.

Section ConvertResults.

Variables (buf : buffer) (out : timespec) (p rem : Z) (m : memory).
Variables (src : list (option Z)) (content : list Z).

Hypothesis Hsize : size buf = Z.of_nat (length content).
Hypothesis Hnonempty : content <> [].
Hypothesis Hmax : size buf < SIZE_MAX.
Hypothesis Hp : p <> 0.
Hypothesis Hfresh : mem_blocks m !! p = None.
Hypothesis Hlive : p ∉ live (mem_alloc m).
Hypothesis Hsrc : mem_blocks m !! data buf = Some src.
Hypothesis Hcontent : take (length content) src = Some <$> content.

Local Abbreviation run :=
  (validate_and_convert (Some buf) (Some out) p rem m).

Local Abbreviation run_eq :=
  (convert_run buf out p rem m src content Hsize Hnonempty Hmax Hp Hfresh
     Hlive Hsrc Hcontent).

Lemma convert_number (ws sign ds tail : list Z) :
  content = ws ++ sign ++ ds ++ tail ->
  Forall (fun w => isspace w = true) ws ->
  sign = [] \/ sign = [43] \/ sign = [45] ->
  all_digits ds -> ds <> [] ->
  (forall c rest, tail = c :: rest -> isdigit c = false) ->
  run =
    if hd 0 tail =? 0 then
      Ret (0,
           Some (jiffies_to_timespec
                   (if SIZE_MAX <? decimal_value ds then SIZE_MAX
                    else if decide (sign = [45])
                         then size_wrap (- decimal_value ds)
                         else decimal_value ds) rem),
           after_convert p m)
    else Ret (-1, Some out, after_convert p m).
Proof.
  intros Hshape Hws Hsign Hds Hne Htail.
  rewrite run_eq. rewrite Hshape.
  assert (Hstr : exists c rest,
    (Some <$> ws ++ sign ++ ds ++ tail) ++ [Some 0]
      = (Some <$> ws ++ sign ++ ds) ++ Some c :: rest /\
    isdigit c = false /\ c = hd 0 tail).
  { destruct tail as [|c rest].
    - exists 0, []. by rewrite app_nil_r.
    - exists c, ((Some <$> rest) ++ [Some 0]).
      split; [|split; [by eapply Htail | done]].
      rewrite !fmap_app, <- !app_assoc. reflexivity. }
  destruct Hstr as (c & rest & -> & Hc & Hhd).
  rewrite (strtoul_number ws sign ds c rest) by done.
  replace (length ws + length sign + length ds)%nat
    with (length (Some <$> ws ++ sign ++ ds))
    by (rewrite length_fmap, !length_app; lia).
  rewrite list_lookup_middle by done. rewrite <- Hhd.
  by destruct (c =? 0).
Qed.

(** X21.  A buffer that holds decimal digits and nothing else converts to
    the ticks they denote: with a value that fits in [unsigned long] the
    call returns 0 and the output is [jiffies_to_timespec] of the value.
    The temporary block is gone again. *)
Theorem convert_digits :
  all_digits content -> decimal_value content <= SIZE_MAX ->
  run = Ret (0, Some (jiffies_to_timespec (decimal_value content) rem),
             after_convert p m).
Proof.
  intros Hds Hfit.
  rewrite (convert_number [] [] content []);
    try (done || by left || by rewrite ?app_nil_r).
  cbn [hd Z.eqb]. destruct (Z.ltb_spec SIZE_MAX (decimal_value content)); [lia|].
  by rewrite decide_False.
Qed.

(** X22.  The check after [strtoul] accepts more than digits: leading
    white space, one sign, and anything at all behind a zero byte.  A plus
    sign changes nothing, a minus sign negates the value in 64 bits, and a
    value beyond [ULONG_MAX] becomes [ULONG_MAX]; in each case the call
    returns 0. *)
Theorem convert_accepts_space_sign_and_nul (ws sign ds junk : list Z) :
  content = ws ++ sign ++ ds \/ content = ws ++ sign ++ ds ++ 0 :: junk ->
  Forall (fun w => isspace w = true) ws ->
  sign = [] \/ sign = [43] \/ sign = [45] ->
  all_digits ds -> ds <> [] ->
  run = Ret (0,
             Some (jiffies_to_timespec
                     (if SIZE_MAX <? decimal_value ds then SIZE_MAX
                      else if decide (sign = [45])
                           then size_wrap (- decimal_value ds)
                           else decimal_value ds) rem),
             after_convert p m).
Proof.
  intros [Hshape|Hshape] Hws Hsign Hds Hne.
  - rewrite (convert_number ws sign ds []);
      try (done || by rewrite ?app_nil_r).
  - rewrite (convert_number ws sign ds (0 :: junk)); try done.
    intros c rest [= <- _]. reflexivity.
Qed.

(** X23.  A number followed by a byte that is neither a digit nor zero is
    rejected: the call returns -1 and the output structure is as it was. *)
Theorem convert_rejects_trailing_byte (ws sign ds rest : list Z) (c : Z) :
  content = ws ++ sign ++ ds ++ c :: rest ->
  Forall (fun w => isspace w = true) ws ->
  sign = [] \/ sign = [43] \/ sign = [45] ->
  all_digits ds -> ds <> [] ->
  isdigit c = false -> c <> 0 ->
  run = Ret (-1, Some out, after_convert p m).
Proof.
  intros Hshape Hws Hsign Hds Hne Hc Hnz.
  rewrite (convert_number ws sign ds (c :: rest)); try done.
  - cbn [hd]. by destruct (Z.eqb_spec c 0).
  - by intros c' rest' [= <- _].
Qed.

(** X24.  Without a digit where a number should start, [strtoul] converts
    nothing and hands back the start of the string, so the verdict rests on
    the first byte of the buffer: a zero byte there makes the call accept
    the buffer as 0 ticks, anything else makes it return -1. *)
Theorem convert_without_digits (ws sign rest : list Z) (c : Z) :
  content ++ [0] = ws ++ sign ++ c :: rest ->
  Forall (fun w => isspace w = true) ws ->
  sign = [] \/ sign = [43] \/ sign = [45] ->
  isdigit c = false ->
  (sign = [] -> isspace c = false /\ c <> 43 /\ c <> 45) ->
  run =
    if hd 0 content =? 0
    then Ret (0, Some (jiffies_to_timespec 0 rem), after_convert p m)
    else Ret (-1, Some out, after_convert p m).
Proof.
  intros Hshape Hws Hsign Hc Hstop.
  rewrite run_eq.
  assert (Hstr : (Some <$> content) ++ [Some 0]
                 = (Some <$> ws ++ sign) ++ Some c :: (Some <$> rest)).
  { change [Some 0] with (Some <$> [0]).
    rewrite <- fmap_app, Hshape, !fmap_app, <- !app_assoc. reflexivity. }
  rewrite Hstr.
  rewrite (strtoul_no_digits ws sign c (Some <$> rest)) by done.
  rewrite <- Hstr.
  destruct content as [|c0 content']; [done|].
  cbn [fmap list_fmap app lookup list_lookup hd].
  by destruct (c0 =? 0).
Qed.

(** X25.  [validate_and_convert] does not leak: whenever it returns after
    a successful [malloc], the temporary block has been freed, on the
    accepting path and on the rejecting one, and the blocks and the live
    set are what they were before the call. *)
Theorem convert_frees_temporary r o m' :
  run = Ret (r, o, m') -> m' = after_convert p m.
Proof.
  rewrite run_eq.
  destruct (strtoul _) as [[jiffies endptr]| |]; [|done|done].
  destruct (_ !! endptr) as [[c|]|]; [|done|done].
  destruct (negb (c =? 0)); congruence.
Qed.

End ConvertResults.

(** The scenario meets the setting of a conversion. *)
Ltac scenario_setting :=
  first
    [ reflexivity
    | done
    | (unfold SIZE_MAX; cbn; lia)
    | (cbn; rewrite elem_of_singleton; lia) ].

Ltac scenario_rest :=
  first
    [ by left
    | by right
    | by (right; right)
    | by repeat constructor
    | by (repeat constructor; lia)
    | by (intros _; repeat split)
    | (unfold SIZE_MAX; cbn; lia) ].

Lemma convert_digits_witness :
  let content := [49; 48; 48; 48] in
  validate_and_convert (Some (scenario_buffer content))
    (Some {| tv_sec := 7; tv_nsec := 7 |}) 8192 0 (scenario_memory content)
  = Ret (0, Some (jiffies_to_timespec (decimal_value content) 0),
         after_convert 8192 (scenario_memory content)).
Proof.
  intros content.
  apply (convert_digits (scenario_buffer content)
           {| tv_sec := 7; tv_nsec := 7 |} 8192 0 (scenario_memory content)
           ((Some <$> content) ++ replicate 4 None) content);
    try scenario_setting.
  all: scenario_rest.
Defined.

Lemma convert_accepts_space_sign_and_nul_witness :
  let content := [32; 45; 49; 50; 0; 120] in
  validate_and_convert (Some (scenario_buffer content))
    (Some {| tv_sec := 7; tv_nsec := 7 |}) 8192 0 (scenario_memory content)
  = Ret (0,
         Some (jiffies_to_timespec
                 (if SIZE_MAX <? decimal_value [49; 50] then SIZE_MAX
                  else if decide ([45] = [45])
                       then size_wrap (- decimal_value [49; 50])
                       else decimal_value [49; 50]) 0),
         after_convert 8192 (scenario_memory content)).
Proof.
  intros content.
  apply (convert_accepts_space_sign_and_nul (scenario_buffer content)
           {| tv_sec := 7; tv_nsec := 7 |} 8192 0 (scenario_memory content)
           ((Some <$> content) ++ replicate 2 None) content)
    with (ws := [32]) (sign := [45]) (ds := [49; 50]) (junk := [120]);
    try scenario_setting.
  all: scenario_rest.
Defined.

Lemma convert_rejects_trailing_byte_witness :
  let content := [49; 50; 97] in
  validate_and_convert (Some (scenario_buffer content))
    (Some {| tv_sec := 7; tv_nsec := 7 |}) 8192 0 (scenario_memory content)
  = Ret (-1, Some {| tv_sec := 7; tv_nsec := 7 |},
         after_convert 8192 (scenario_memory content)).
Proof.
  intros content.
  apply (convert_rejects_trailing_byte (scenario_buffer content)
           {| tv_sec := 7; tv_nsec := 7 |} 8192 0 (scenario_memory content)
           ((Some <$> content) ++ replicate 5 None) content)
    with (ws := []) (sign := []) (ds := [49; 50]) (rest := []) (c := 97);
    try scenario_setting.
  all: scenario_rest.
Defined.

Lemma convert_without_digits_witness :
  let content := [0; 49; 50] in
  validate_and_convert (Some (scenario_buffer content))
    (Some {| tv_sec := 7; tv_nsec := 7 |}) 8192 0 (scenario_memory content)
  = if hd 0 content =? 0
    then Ret (0, Some (jiffies_to_timespec 0 0),
              after_convert 8192 (scenario_memory content))
    else Ret (-1, Some {| tv_sec := 7; tv_nsec := 7 |},
              after_convert 8192 (scenario_memory content)).
Proof.
  intros content.
  apply (convert_without_digits (scenario_buffer content)
           {| tv_sec := 7; tv_nsec := 7 |} 8192 0 (scenario_memory content)
           ((Some <$> content) ++ replicate 5 None) content)
    with (ws := []) (sign := []) (rest := [49; 50; 0]) (c := 0);
    try scenario_setting.
  all: scenario_rest.
Defined.

Lemma convert_frees_temporary_witness :
  let content := [49; 50; 97] in
  validate_and_convert (Some (scenario_buffer content))
    (Some {| tv_sec := 7; tv_nsec := 7 |}) 8192 0 (scenario_memory content)
  = Ret (-1, Some {| tv_sec := 7; tv_nsec := 7 |},
         after_convert 8192 (scenario_memory content)) /\
  after_convert 8192 (scenario_memory content)
  = after_convert 8192 (scenario_memory content).
Proof.
  intros content.
  assert (Hrun :
    validate_and_convert (Some (scenario_buffer content))
      (Some {| tv_sec := 7; tv_nsec := 7 |}) 8192 0 (scenario_memory content)
    = Ret (-1, Some {| tv_sec := 7; tv_nsec := 7 |},
           after_convert 8192 (scenario_memory content)))
    by (vm_compute; reflexivity).
  split; [exact Hrun|].
  apply (convert_frees_temporary (scenario_buffer content)
           {| tv_sec := 7; tv_nsec := 7 |} 8192 0 (scenario_memory content)
           ((Some <$> content) ++ replicate 5 None) content)
    with (r := -1) (o := Some {| tv_sec := 7; tv_nsec := 7 |});
    try scenario_setting.
Defined.

(** X26.  An empty buffer is not an error: with [size] 0 nothing is
    allocated or parsed, the call returns 0 and the output is zero seconds
    and zero nanoseconds. *)
Theorem convert_empty_buffer (buf : buffer) (out : timespec) (p rem : Z)
    (m : memory) :
  size buf = 0 ->
  validate_and_convert (Some buf) (Some out) p rem m
    = Ret (0, Some {| tv_sec := 0; tv_nsec := 0 |}, m).
Proof.
  intros Hsize. unfold validate_and_convert, process_jiffies.
  rewrite Hsize. cbn [Z.ltb Z.compare].
  by rewrite jiffies_to_timespec_eval.
Qed.

Lemma convert_empty_buffer_witness :
  validate_and_convert (Some {| data := 0; size := 0; capacity := 0 |})
    (Some {| tv_sec := 7; tv_nsec := 7 |}) 8192 0 (scenario_memory [])
  = Ret (0, Some {| tv_sec := 0; tv_nsec := 0 |}, scenario_memory []).
Proof.
  apply (convert_empty_buffer {| data := 0; size := 0; capacity := 0 |}
           {| tv_sec := 7; tv_nsec := 7 |} 8192 0 (scenario_memory [])).
  reflexivity.
Defined.

(** ** The sequence of [main] *)

(** X27.  The sequence of [main], for any digits that fit in the initial
    capacity: [initialize_buffer], [append_to_buffer] of the digits,
    [validate_and_convert] and [cleanup_buffer] all succeed, the output is
    [jiffies_to_timespec] of the number written, and at the end the live
    blocks are those of the start, the buffer's block and the temporary
    block having been freed once each. *)
Theorem main_sequence (ds : list Z) (initial_capacity p1 q p2 rem : Z)
    (buf0 : buffer) (out : timespec) (fuel : nat) (m : memory) :
  all_digits ds -> ds <> [] -> decimal_value ds <= SIZE_MAX ->
  Z.of_nat (length ds) <= initial_capacity < SIZE_MAX ->
  p1 <> 0 -> p1 ∉ live (mem_alloc m) -> mem_blocks m !! p1 = None ->
  p2 <> 0 -> p2 <> p1 -> p2 ∉ live (mem_alloc m) ->
  mem_blocks m !! p2 = None ->
  let '(r1, buf1, m1) := initialize_buffer buf0 initial_capacity p1 m in
  r1 = 0 /\
  exists buf2 m2,
    append_to_buffer fuel buf1 ds (Z.of_nat (length ds)) q m1
      = Ret (0, buf2, m2) /\
    validate_and_convert (Some buf2) (Some out) p2 rem m2
      = Ret (0, Some (jiffies_to_timespec (decimal_value ds) rem),
             after_convert p2 m2) /\
    let '(buf3, a3) :=
      cleanup_buffer buf2 (mem_alloc (after_convert p2 m2)) in
    buf3 = {| data := 0; size := 0; capacity := 0 |} /\
    live a3 = live (mem_alloc m) /\
    freed a3 = p1 :: p2 :: freed (mem_alloc m).
Proof.
  intros Hds Hne Hval Hcap Hp1 Hl1 Hb1 Hp2 Hp21 Hl2 Hb2.
  unfold initialize_buffer, malloc.
  destruct (Z.eqb_spec p1 0) as [|_]; [done|].
  split; [reflexivity|].
  set (buf1 := {| data := p1; size := 0; capacity := initial_capacity |}).
  set (m1 := {| mem_alloc := {| live := {[p1]} ∪ live (mem_alloc m);
                                freed := freed (mem_alloc m) |};
                mem_blocks :=
                  <[p1 := replicate (Z.to_nat initial_capacity) None]>
                    (mem_blocks m) |}).
  assert (Hok1 : buffer_ok buf1 m1).
  { split; [cbn; lia|]. unfold buffer_block. cbn [data buf1].
    destruct (Z.eqb_spec p1 0) as [|_]; [done|].
    eexists. split; [apply lookup_insert_eq|].
    rewrite length_replicate. cbn. lia. }
  destruct (append_fit fuel buf1 ds (Z.of_nat (length ds)) q m1)
    as (buf2 & m2 & Hrun & Hd & Hc & Hs & Halloc & Hother & Hok2 & Hcont);
    try (done || cbn; lia).
  exists buf2, m2. split; [exact Hrun|].
  cbn [data size capacity buf1] in Hd, Hc, Hs.
  destruct (buffer_ok_block _ _ Hok2) as (block & Hblock & _ & Hcont2).
  unfold buffer_block in Hblock. rewrite Hd in Hblock.
  destruct (Z.eqb_spec p1 0) as [|_]; [done|].
  assert (Htake : take (length ds) block = Some <$> ds).
  { rewrite Hcont in Hcont2.
    unfold buffer_content, buffer_block in Hcont2.
    cbn [data size buf1] in Hcont2.
    destruct (Z.eqb_spec p1 0) as [|_]; [done|].
    unfold m1 in Hcont2. cbn [mem_blocks] in Hcont2.
    rewrite lookup_insert_eq in Hcont2.
    change (Z.to_nat 0) with O in Hcont2.
    rewrite take_0, app_nil_l, Nat2Z.id, firstn_all in Hcont2.
    rewrite Hs, Z.add_0_l, Nat2Z.id in Hcont2. by symmetry. }
  assert (Hsize2 : size buf2 = Z.of_nat (length ds)) by lia.
  assert (Hmax2 : size buf2 < SIZE_MAX) by lia.
  assert (Hfresh2 : mem_blocks m2 !! p2 = None).
  { rewrite Hother by (cbn; congruence).
    unfold m1. cbn [mem_blocks]. by rewrite lookup_insert_ne. }
  assert (Hlive2 : p2 ∉ live (mem_alloc m2)).
  { rewrite Halloc. unfold m1. cbn [mem_alloc live].
    by apply not_live_after_alloc. }
  assert (Hsrc2 : mem_blocks m2 !! data buf2 = Some block)
    by (by rewrite Hd).
  split.
  - rewrite (convert_number buf2 out p2 rem m2 block ds Hsize2 Hne Hmax2
               Hp2 Hfresh2 Hlive2 Hsrc2 Htake [] [] ds []);
      try (done || by left || by rewrite ?app_nil_r).
    cbn [hd Z.eqb].
    destruct (Z.ltb_spec SIZE_MAX (decimal_value ds)); [lia|].
    by rewrite decide_False.
  - unfold cleanup_buffer, after_convert. cbn [mem_alloc]. rewrite Hd.
    destruct (Z.eqb_spec p1 0) as [|_]; [done|].
    cbn [negb]. rewrite Halloc. unfold m1, free. cbn [mem_alloc live freed].
    split; [done|]. split; [by apply live_after_release | done].
Qed.

Lemma main_sequence_witness :
  let m := {| mem_alloc := {| live := ∅; freed := [] |}; mem_blocks := ∅ |} in
  let ds := [49; 48; 48; 48] in
  let out := {| tv_sec := 7; tv_nsec := 7 |} in
  let '(r1, buf1, m1) :=
    initialize_buffer {| data := 1; size := 2; capacity := 3 |} 1024 4096 m in
  r1 = 0 /\
  exists buf2 m2,
    append_to_buffer 0 buf1 ds (Z.of_nat (length ds)) 0 m1
      = Ret (0, buf2, m2) /\
    validate_and_convert (Some buf2) (Some out) 8192 0 m2
      = Ret (0, Some (jiffies_to_timespec (decimal_value ds) 0),
             after_convert 8192 m2) /\
    let '(buf3, a3) :=
      cleanup_buffer buf2 (mem_alloc (after_convert 8192 m2)) in
    buf3 = {| data := 0; size := 0; capacity := 0 |} /\
    live a3 = live (mem_alloc m) /\
    freed a3 = 4096 :: 8192 :: freed (mem_alloc m).
Proof.
  intros m ds out.
  apply (main_sequence ds 1024 4096 0 8192 0
           {| data := 1; size := 2; capacity := 3 |} out 0 m).
  - repeat constructor; lia.
  - done.
  - unfold SIZE_MAX. cbn. lia.
  - unfold SIZE_MAX. cbn. lia.
  - lia.
  - cbn. apply not_elem_of_empty.
  - reflexivity.
  - lia.
  - lia.
  - cbn. apply not_elem_of_empty.
  - reflexivity.
Defined.

(** What [main] prints for its input ["1000"]: one second, no
    nanoseconds. *)
Example main_output :
  jiffies_to_timespec (decimal_value [49; 48; 48; 48]) 0
    = {| tv_sec := 1; tv_nsec := 0 |}.
Proof. reflexivity. Qed.

End SampleTheory.
